(** * useStateMachine: the transition engine of src/src/logger.ts

    A shallow embedding of [getReducer] / [reducer], of the initial snapshot
    built by [useStateMachineWithContext], and of the effect hook that runs
    the entry and exit callbacks of the states.

    Conventions of the embedding.
    - [config.states] is a JavaScript object used as a dictionary from state
      names to state definitions; it is only ever indexed, so it is a
      [gmap string _] over the object's own properties.
    - [on] is indexed and enumerated ([Object.keys]); it is the list of the
      object's own properties in the order [Object.keys] enumerates them.
    - Both are plain objects, with [Object.prototype] as prototype: an
      index expression that finds no own property may return one of its
      members ([constructor], [toString], ...), which is neither a state
      definition nor a transition.  None of those members has a property
      [on], [target], [guard] or [effect].
    - A property that is found nowhere reads as [undefined]; reading a
      property of [undefined] without optional chaining raises a
      [TypeError].
    - The state value of a snapshot is a string in every typed use; the
      reducer can also store [undefined] there, so it is a [StateValue].
    - The context is a record ([Record<PropertyKey, any>]): a finite map from
      property names to values of an arbitrary type [Val].
    - Every evaluation carries a log of what it touched: the reads of
      [config.states], the calls of guards and the runs of entry and exit
      effects, in program order. *)

From stdpp Require Import base option list strings gmap.

Local Open Scope string_scope.
Local Open Scope list_scope.

(** ** Results and the evaluation log *)

(** [Ok a] is a normal return, [TypeError] the exception raised by a
    property read on [undefined]. *)
Inductive result (A : Type) : Type :=
| Ok (a : A)
| TypeError.
Arguments Ok {A} a.
Arguments TypeError {A}.

(** What [state.value] can hold at run time: a state name, or [undefined]
    (the [target] of something that is not a transition). *)
Inductive StateValue : Type :=
| Undefined
| Named (name : string).

Coercion Named : string >-> StateValue.

#[global] Instance StateValue_eq_dec : EqDecision StateValue.
Proof. solve_decision. Defined.

(** The property key a value is converted to when it indexes an object. *)
Definition key_of (v : StateValue) : string :=
  match v with
  | Named name => name
  | Undefined => "undefined"
  end.

Inductive Access : Type :=
| ReadState (name : StateValue)                   (* config.states[name] *)
| CallGuard (value : StateValue) (event : string) (* guard(value, event) *)
| RunEntry (name : StateValue)   (* the effect of state [name] *)
| RunExit (name : StateValue).   (* the function returned by that effect *)

(** A computation: the log it wrote and how it ended. *)
Definition M (A : Type) : Type := list Access * result A.

#[global] Instance M_ret : MRet M := λ A a, ([], Ok a).

#[global] Instance M_bind : MBind M := λ A B k m,
  match m with
  | (t, Ok a) => let '(t', r) := k a in (t ++ t', r)
  | (t, TypeError) => (t, TypeError)
  end.

Definition throw {A} : M A := ([], TypeError).

Definition tell (a : Access) : M unit := ([a], Ok tt).

Definition trace {A} (m : M A) : list Access := fst m.
Definition outcome {A} (m : M A) : result A := snd m.

(** ** Data model *)

(** [type Transition = string | { target: string; guard?: ... }] *)
Inductive Transition : Type :=
| Shorthand (target : string)
| TransitionObject (target : string)
    (guard : option (StateValue → string → bool)).

(** JavaScript truthiness of a transition value: the empty string is falsy,
    every other string and every object is truthy. *)
Definition truthy (t : Transition) : bool :=
  match t with
  | Shorthand s => negb (String.eqb s "")
  | TransitionObject _ _ => true
  end.

(** The members of [Object.prototype]: built-in functions, and the
    prototype object itself under [__proto__]. *)
Inductive Member : Type :=
| BuiltinFunction
| PrototypeObject.

Definition Object_prototype (key : string) : option Member :=
  if existsb (String.eqb key)
       ["constructor"; "hasOwnProperty"; "isPrototypeOf";
        "propertyIsEnumerable"; "toLocaleString"; "toString"; "valueOf";
        "__defineGetter__"; "__defineSetter__"; "__lookupGetter__";
        "__lookupSetter__"]
  then Some BuiltinFunction
  else if String.eqb key "__proto__" then Some PrototypeObject
  else None.

(** What an index expression [o[key]] on a plain object returns: the own
    property, else the member of [Object.prototype] of that name, else
    [undefined]. *)
Inductive Found (V : Type) : Type :=
| Own (v : V)
| Inherited (m : Member)
| NotFound.
Arguments Own {V} v.
Arguments Inherited {V} m.
Arguments NotFound {V}.

(** The own property an index expression found, if it found one. *)
Definition own_of {V} (found : Found V) : option V :=
  match found with
  | Own v => Some v
  | Inherited _ => None
  | NotFound => None
  end.

(** The index expression, given the own property of the key if there is
    one. *)
Definition index {V} (own : option V) (key : string) : Found V :=
  match own with
  | Some v => Own v
  | None =>
      match Object_prototype key with
      | Some m => Inherited m
      | None => NotFound
      end
  end.

(** An object literal: own properties in enumeration order. *)
Definition Obj (V : Type) : Type := list (string * V).

(** The own property of a key. *)
Fixpoint get_own {V} (o : Obj V) (key : string) : option V :=
  match o with
  | [] => None
  | (k, v) :: o' => if String.eqb k key then Some v else get_own o' key
  end.

(** [o[key]] *)
Definition get {V} (o : Obj V) (key : string) : Found V :=
  index (get_own o key) key.

(** [Object.keys(o)] *)
Definition Object_keys {V} (o : Obj V) : list string := map fst o.

Section Machine.

(** The values stored in the context ([any]). *)
Variable Val : Type.

Abbreviation Context := (gmap string Val).

(** What an entry or exit effect can do to the machine is to call the
    updater function [assign] it receives; an effect is given by the
    updaters it passes to [assign], in order, and an entry effect also by
    the function it returns, if it returns one. *)
Record Effect : Type := {
  assigns : list (Context → Context);
  exit : option (list (Context → Context));
}.

(** [interface MachineStateConfig<C> extends BaseStateConfig] *)
Record MachineStateConfig : Type := {
  on : option (Obj Transition);
  effect : option Effect;
}.

(** [interface MachineConfig<C>] *)
Record MachineConfig : Type := {
  initial : string;
  states : gmap string MachineStateConfig;
}.

(** The reducer's state: [{ value, context, nextEvents }]. *)
Record MachineState : Type := {
  value : StateValue;
  context : Context;
  nextEvents : list string;
}.

(** The reducer's second argument: an event name, or the internal
    [{ type: __contextKey, updater }] object. *)
Inductive Message : Type :=
| Event (name : string)
| ContextUpdate (updater : Context → Context).

(** The property key an index expression [o[event]] uses: the event name
    itself, or the string conversion of the internal object. *)
Definition property_key (event : Message) : string :=
  match event with
  | Event name => name
  | ContextUpdate _ => "[object Object]"
  end.

(** [config.states[name]] *)
Definition resolved (config : MachineConfig) (name : StateValue)
  : Found MachineStateConfig :=
  index (states config !! key_of name) (key_of name).

(** [config.states[name]], logged. *)
Definition read_state (config : MachineConfig) (name : StateValue)
  : M (Found MachineStateConfig) :=
  tell (ReadState name) ;; mret (resolved config name).

(** [guard(value, event)], logged. *)
Definition call_guard (guard : StateValue → string → bool) (v : StateValue)
    (e : string) : M bool :=
  tell (CallGuard v e) ;; mret (guard v e).

(** [currentState?.on?.[key]]; an inherited member has no [on]. *)
Definition on_lookup (currentState : Found MachineStateConfig) (key : string)
  : Found Transition :=
  match currentState with
  | Own sc =>
      match on sc with
      | None => NotFound
      | Some o => get o key
      end
  | Inherited _ => NotFound
  | NotFound => NotFound
  end.

(** [Object.keys(sc.on ?? [])] for a state definition. *)
Definition on_keys (sc : MachineStateConfig) : list string :=
  Object_keys (default [] (on sc)).

(** [Object.keys(targetState.on ?? [])] for what [config.states[...]] found:
    an inherited member has no [on]. *)
Definition found_keys (targetState : Found MachineStateConfig) : list string :=
  match targetState with
  | Own sc => on_keys sc
  | Inherited _ => []
  | NotFound => []
  end.

(** [typeof nextState === 'string' ? nextState : nextState.target] *)
Definition target_of (t : Transition) : string :=
  match t with
  | Shorthand s => s
  | TransitionObject target _ => target
  end.

(** [typeof nextState === 'object' && nextState.guard &&
     !nextState.guard(state.value, event)] *)
Definition denied (t : Transition) (v : StateValue) (e : string) : M bool :=
  match t with
  | TransitionObject _ (Some guard) =>
      allowed ← call_guard guard v e; mret (negb allowed)
  | _ => mret false
  end.

(** The tests of the reducer on what [currentState?.on?.[event]] found.  An
    inherited member is a function or an object: it is truthy, its [target]
    is [undefined] and it has no [guard].

    [!nextState] is [negb (is_truthy nextState)]. *)
Definition is_truthy (nextState : Found Transition) : bool :=
  match nextState with
  | Own t => truthy t
  | Inherited _ => true
  | NotFound => false
  end.

(** [typeof nextState === 'string' ? nextState : nextState.target] *)
Definition next_value (nextState : Found Transition) : StateValue :=
  match nextState with
  | Own t => Named (target_of t)
  | Inherited _ => Undefined
  | NotFound => Undefined
  end.

(** The guard test: a function is not of type ['object'], and
    [Object.prototype] has no [guard]. *)
Definition is_denied (nextState : Found Transition) (v : StateValue)
    (e : string) : M bool :=
  match nextState with
  | Own t => denied t v e
  | Inherited _ => mret false
  | NotFound => mret false
  end.

(** [getReducer(config)], the function [reducer(state, event)]. *)
Definition reducer (config : MachineConfig) (state : MachineState)
    (event : Message) : M MachineState :=
  currentState ← read_state config (value state);
  let nextState := on_lookup currentState (property_key event) in
  match event with
  | ContextUpdate updater =>
      mret {| value := value state;
             context := updater (context state);
             nextEvents := nextEvents state |}
  | Event name =>
      if negb (is_truthy nextState) then mret state
      else
        let nextStateValue := next_value nextState in
        no ← is_denied nextState (value state) name;
        if (no : bool) then mret state
        else
          targetState ← read_state config nextStateValue;
          match targetState with
          | NotFound => throw
          | found =>
              mret {| value := nextStateValue;
                     context := context state;
                     nextEvents := found_keys found |}
          end
  end.

(** The initial snapshot of [useStateMachineWithContext]; [ctx] is the
    optional argument of [useStateMachine]. *)
Definition initialState (ctx : option Context) (config : MachineConfig)
  : M MachineState :=
  initialDef ← read_state config (initial config);
  match initialDef with
  | NotFound => throw
  | found =>
      mret {| value := initial config;
             context := default ∅ ctx;
             nextEvents := found_keys found |}
  end.

(** ** The hook body: [useReducer] and [useEffect] *)

(** The function an effect run leaves behind, [exit.bind(null, update)],
    kept with the name of the state whose effect returned it. *)
Definition Cleanup : Type := StateValue * list (Context → Context).

(** [update(updater)] is [send({ type: __contextKey, updater })]: the calls
    an effect makes to [update] become messages sent to the reducer. *)
Definition update (updaters : list (Context → Context)) : list Message :=
  map ContextUpdate updaters.

(** [stateDef?.effect]: an inherited member has no [effect]. *)
Definition found_effect (stateDef : Found MachineStateConfig) : option Effect :=
  match stateDef with
  | Own sc => effect sc
  | Inherited _ => None
  | NotFound => None
  end.

(** The callback given to [useEffect]:
    [const exit = config.states[machine.value]?.effect?.(update);
     return typeof exit === 'function' ? exit.bind(null, update) : void 0]
    It returns the messages sent while it ran and the cleanup. *)
Definition run_effect (config : MachineConfig) (machine : MachineState)
  : M (list Message * option Cleanup) :=
  stateDef ← read_state config (value machine);
  match found_effect stateDef with
  | None => mret ([], None)
  | Some e =>
      tell (RunEntry (value machine));;
      mret (update (assigns e), (λ us, (value machine, us)) <$> exit e)
  end.

(** Calling a cleanup calls the exit function with [update]. *)
Definition run_cleanup (c : option Cleanup) : M (list Message) :=
  match c with
  | None => mret []
  | Some (owner, us) => tell (RunExit owner);; mret (update us)
  end.

(** Modelled from the spec: the host's effect hook ([useEffect] of React,
    which is not part of the repository).  Section 4.3: at initialization
    the effect runs and what it returns is kept as the pending exit
    callback; after a snapshot whose dependency (the state value) differs
    from the one of the last run, the pending exit callback is invoked and
    discarded, then the effect runs again; with an unchanged dependency
    nothing runs.  [prev] is [None] at initialization, else the dependency
    and the pending callback of the last run. *)
Definition useEffect (setup : M (list Message * option Cleanup))
    (dep : StateValue) (prev : option (StateValue * option Cleanup))
  : M (list Message * (StateValue * option Cleanup)) :=
  match prev with
  | None =>
      '(sent, c) ← setup; mret (sent, (dep, c))
  | Some (d, c) =>
      if bool_decide (d = dep) then mret ([], (d, c))
      else
        sent1 ← run_cleanup c;
        '(sent2, c') ← setup;
        mret (sent1 ++ sent2, (dep, c'))
  end.

(** What the hook instance holds between renders: the state of
    [useReducer], the dependency and the cleanup of the last effect run, and
    the messages sent by effects that the reducer has not seen yet. *)
Record Hook : Type := {
  machine : MachineState;
  deps : StateValue;
  cleanup : option Cleanup;
  queue : list Message;
}.

(** The first render of [useStateMachineWithContext] and its commit. *)
Definition mount (ctx : option Context) (config : MachineConfig) : M Hook :=
  machine0 ← initialState ctx config;
  '(sent, (d, c)) ← useEffect (run_effect config machine0) (value machine0) None;
  mret {| machine := machine0; deps := d; cleanup := c; queue := sent |}.

(** [send(message)] and the render it causes: the reducer replaces the
    snapshot, then the effect hook sees the new [machine.value]. *)
Definition render (config : MachineConfig) (h : Hook) (message : Message)
  : M Hook :=
  machine' ← reducer config (machine h) message;
  '(sent, (d, c)) ← useEffect (run_effect config machine') (value machine')
                      (Some (deps h, cleanup h));
  mret {| machine := machine'; deps := d; cleanup := c;
          queue := queue h ++ sent |}.

(** The oldest message sent by an effect goes through the same path. *)
Definition next (config : MachineConfig) (h : Hook) : M Hook :=
  match queue h with
  | [] => mret h
  | message :: rest =>
      render config {| machine := machine h; deps := deps h;
                       cleanup := cleanup h; queue := rest |} message
  end.

(** ** Vocabulary of the statements *)

(** [config.states[value]?.on?.[event]] *)
Definition next_of (config : MachineConfig) (v : StateValue) (event : string)
  : Found Transition :=
  on_lookup (resolved config v) event.

(** The transition configured for an event in a state: the own entry of
    the own [on] map of the state's own definition, [None] when the
    definition, the map or the entry is missing. *)
Definition transition_of (config : MachineConfig) (v : StateValue)
    (event : string) : option Transition :=
  own_of (next_of config v event).

(** The guard of a transition lets the event through: there is none, or it
    returns true on the state value and the event name. *)
Definition guard_passes (t : Transition) (v : StateValue) (event : string)
  : bool :=
  match t with
  | TransitionObject _ (Some guard) => guard v event
  | _ => true
  end.

(** Every transition of the configuration targets a declared state. *)
Definition targets_declared (config : MachineConfig) : Prop :=
  ∀ v event t, transition_of config v event = Some t →
    is_Some (states config !! target_of t).

(** [nextEvents] lists the keys of [config.states[value].on]:
    [config.states[value]] is found, and [nextEvents] are the keys of its
    [on] map, none when it has no [on] map. *)
Definition nextEvents_current (config : MachineConfig) (s : MachineState) : Prop :=
  match resolved config (value s) with
  | Own sc => nextEvents s = match on sc with
                             | Some o => Object_keys o
                             | None => []
                             end
  | Inherited _ => nextEvents s = []
  | NotFound => False
  end.

(** The same condition on the configuration as data: in every declared
    state, every entry of the [on] map targets a declared state. *)
Definition all_targets_declared (config : MachineConfig) : Prop :=
  map_Forall
    (λ _ sc, Forall (λ et : string * Transition,
                       is_Some (states config !! target_of et.2))
                    (default [] (on sc)))
    (states config).

(** Snapshots the reducer can produce, starting from the initial one. *)
Inductive reachable (ctx : option Context) (config : MachineConfig)
  : MachineState → Prop :=
| reachable_initial s :
    outcome (initialState ctx config) = Ok s → reachable ctx config s
| reachable_step s message s' :
    reachable ctx config s →
    outcome (reducer config s message) = Ok s' →
    reachable ctx config s'.

(** Dispatching the same event [n] times in a row. *)
Fixpoint dispatch_n (config : MachineConfig) (n : nat) (s : MachineState)
    (event : string) : M MachineState :=
  match n with
  | O => mret s
  | S n' => s' ← reducer config s (Event event); dispatch_n config n' s' event
  end.

(** The runs of entry and exit effects in a log. *)
Definition is_effect_run (a : Access) : bool :=
  match a with
  | RunEntry _ | RunExit _ => true
  | _ => false
  end.

Definition effect_runs (t : list Access) : list Access :=
  List.filter is_effect_run t.

(** [config.states[v]?.effect] *)
Definition effect_of (config : MachineConfig) (v : StateValue) : option Effect :=
  found_effect (resolved config v).

(** The run of the entry effect of a state, if it has one. *)
Definition entry_run (config : MachineConfig) (v : StateValue) : list Access :=
  match effect_of config v with
  | Some _ => [RunEntry v]
  | None => []
  end.

(** The cleanup that the entry effect of a state returns, if any. *)
Definition exit_of (config : MachineConfig) (v : StateValue) : option Cleanup :=
  match effect_of config v with
  | Some e => (λ us, (v, us)) <$> exit e
  | None => None
  end.

Definition exit_run (config : MachineConfig) (v : StateValue) : list Access :=
  match exit_of config v with
  | Some _ => [RunExit v]
  | None => []
  end.

(** Hook instances that a mount followed by renders can produce. *)
Inductive hook_reachable (ctx : option Context) (config : MachineConfig)
  : Hook → Prop :=
| hook_mounted h :
    outcome (mount ctx config) = Ok h → hook_reachable ctx config h
| hook_rendered h message h' :
    hook_reachable ctx config h →
    outcome (render config h message) = Ok h' →
    hook_reachable ctx config h'
| hook_next h h' :
    hook_reachable ctx config h →
    outcome (next config h) = Ok h' →
    hook_reachable ctx config h'.

End Machine.

Arguments Build_Effect {Val}.
Arguments assigns {Val}.
Arguments exit {Val}.
Arguments Build_MachineStateConfig {Val}.
Arguments on {Val}.
Arguments effect {Val}.
Arguments Build_MachineConfig {Val}.
Arguments initial {Val}.
Arguments states {Val}.
Arguments Build_MachineState {Val}.
Arguments value {Val}.
Arguments context {Val}.
Arguments nextEvents {Val}.
Arguments Event {Val}.
Arguments ContextUpdate {Val}.
Arguments property_key {Val}.
Arguments resolved {Val}.
Arguments read_state {Val}.
Arguments found_keys {Val}.
Arguments found_effect {Val}.
Arguments next_of {Val}.
Arguments on_lookup {Val}.
Arguments on_keys {Val}.
Arguments reducer {Val}.
Arguments initialState {Val}.
Arguments update {Val}.
Arguments run_effect {Val}.
Arguments run_cleanup {Val}.
Arguments useEffect {Val}.
Arguments Build_Hook {Val}.
Arguments machine {Val}.
Arguments deps {Val}.
Arguments cleanup {Val}.
Arguments queue {Val}.
Arguments mount {Val}.
Arguments render {Val}.
Arguments next {Val}.
Arguments transition_of {Val}.
Arguments targets_declared {Val}.
Arguments nextEvents_current {Val}.
Arguments all_targets_declared {Val}.
Arguments reachable {Val}.
Arguments dispatch_n {Val}.
Arguments effect_of {Val}.
Arguments entry_run {Val}.
Arguments exit_of {Val}.
Arguments exit_run {Val}.
Arguments hook_reachable {Val}.

(** What the last statement of the reducer returns for a target: the read
    of [config.states[target].on] fails when the target is not declared. *)
Definition landed {Val} (config : MachineConfig Val) (state : MachineState Val)
    (target : StateValue) : result (MachineState Val) :=
  match resolved config target with
  | NotFound => TypeError
  | found =>
      Ok {| value := target; context := context state;
            nextEvents := found_keys found |}
  end.

(** The reducer took the transition [t]: it returned a snapshot at the
    target of [t], with the context it was given and with the keys of the
    target's [on] map as next events. *)
Definition takes_transition {Val} (config : MachineConfig Val)
    (state : MachineState Val) (event : string) (t : Transition) : Prop :=
  ∃ state',
    outcome (reducer config state (Event event)) = Ok state' ∧
    value state' = target_of t ∧
    context state' = context state ∧
    (∀ e, e ∈ nextEvents state' ↔
          is_Some (transition_of config (target_of t) e)).

(** The guard calls of a log. *)
Definition guard_calls (t : list Access) : list Access :=
  List.filter (λ a, match a with CallGuard _ _ => true | _ => false end) t.

(** The messages the entry effect of a state sends through [update]. *)
Definition sent_on_entry {Val} (config : MachineConfig Val) (v : StateValue)
  : list (Message Val) :=
  match effect_of config v with
  | Some e => map ContextUpdate (assigns e)
  | None => []
  end.

(** The messages the exit function of a state sends through [update]. *)
Definition sent_on_exit {Val} (config : MachineConfig Val) (v : StateValue)
  : list (Message Val) :=
  match exit_of config v with
  | Some (_, us) => map ContextUpdate us
  | None => []
  end.

(** Messages that leave the state value as it is: a context update, an
    event without a transition in the current state, an event whose guard
    returns false. *)
Definition stays {Val} (config : MachineConfig Val) (s : MachineState Val)
    (message : Message Val) : bool :=
  match message with
  | ContextUpdate _ => true
  | Event e =>
      match next_of config (value s) e with
      | NotFound => true
      | Own t => negb (guard_passes t (value s) e)
      | Inherited _ => false
      end
  end.

(** The message is a context update. *)
Definition is_update {Val} (message : Message Val) : Prop :=
  match message with
  | ContextUpdate _ => True
  | Event _ => False
  end.

(** Between renders the hook holds the state value as the dependency of
    the last effect run, the exit function of that state as cleanup, and
    only context updates in its queue. *)
Definition hook_ok {Val} (config : MachineConfig Val) (h : Hook Val) : Prop :=
  deps h = value (machine h) ∧
  cleanup h = exit_of config (value (machine h)) ∧
  Forall is_update (queue h).

(** ** More of the source *)

(** [log(message, ...optionalParams)]: [NODE_ENV] is the value of
    [process.env.NODE_ENV], [None] when it is not set.  The result is the
    argument list of the one call of [console.log], strings on the left and
    the optional parameters on the right, or [None] when nothing is
    logged. *)
Definition log {A} (NODE_ENV : option string) (message : string)
    (optionalParams : list A) : option (list (string + A)) :=
  match NODE_ENV with
  | Some env =>
      if String.eqb env "development" then
        let logArguments :=
          inl ("%cuseStateMachine " +:+ ("%c" +:+ message))
          :: inl "color: #888;" :: inl "color: default;"
          :: map inr optionalParams in
        Some logArguments
      else None
  | None => None
  end.

(** [useConstant(init)] in one render: [current] is [ref.current] before
    the call, [None] for [null]; [init] returns [None] when its result is
    [null].  The result is [ref.current] after the call, which is also the
    value returned, and the number of calls of [init]. *)
Definition useConstant {T} (init : unit → option T) (current : option T)
  : option T * nat :=
  match current with
  | None => (init tt, 1)
  | Some v => (Some v, 0)
  end.

(** [useConstant] over the renders of one component, each with the [init]
    of that render: the values returned and the calls of [init]. *)
Fixpoint useConstant_renders {T} (inits : list (unit → option T))
    (current : option T) : list (option T) * nat :=
  match inits with
  | [] => ([], 0)
  | init :: inits' =>
      let '(current', calls) := useConstant init current in
      let '(values, calls') := useConstant_renders inits' current' in
      (current' :: values, calls + calls')
  end.

(** The reducer over the messages sent, oldest first. *)
Fixpoint reduce_all {Val} (config : MachineConfig Val) (s : MachineState Val)
    (messages : list (Message Val)) : M (MachineState Val) :=
  match messages with
  | [] => mret s
  | message :: rest => s' ← reducer config s message; reduce_all config s' rest
  end.

(** What a message does to a context when it is reduced. *)
Definition on_context {Val} (c : gmap string Val) (message : Message Val)
  : gmap string Val :=
  match message with
  | ContextUpdate updater => updater c
  | Event _ => c
  end.

(** The event names among the messages. *)
Definition is_event {Val} (message : Message Val) : bool :=
  match message with
  | Event _ => true
  | ContextUpdate _ => false
  end.

(** The part of a result the context plays no role in. *)
Definition position {Val} (r : result (MachineState Val))
  : result (StateValue * list string) :=
  match r with
  | Ok s => Ok (value s, nextEvents s)
  | TypeError => TypeError
  end.

(** [next] repeated: the queued messages delivered one by one. *)
Fixpoint deliver {Val} (config : MachineConfig Val) (n : nat) (h : Hook Val)
  : M (Hook Val) :=
  match n with
  | O => mret h
  | S n' => h' ← next config h; deliver config n' h'
  end.

(** What happens to a mounted hook: a message is sent from outside, or the
    oldest queued message is delivered. *)
Inductive Step (Val : Type) : Type :=
| Send (message : Message Val)
| Deliver.
Arguments Send {Val} message.
Arguments Deliver {Val}.

Fixpoint steps {Val} (config : MachineConfig Val) (h : Hook Val)
    (l : list (Step Val)) : M (Hook Val) :=
  match l with
  | [] => mret h
  | Send message :: l' => h' ← render config h message; steps config h' l'
  | Deliver :: l' => h' ← next config h; steps config h' l'
  end.

(** The life of a hook: the first render, then the steps. *)
Definition session {Val} (ctx : option (gmap string Val))
    (config : MachineConfig Val) (l : list (Step Val)) : M (Hook Val) :=
  h ← mount ctx config; steps config h l.

(** Every exit run in the log belongs to the state whose entry effect ran
    last, with no other effect run in between; [entered] is that state at
    the start of the log, if there is one. *)
Fixpoint exits_follow_entries (entered : option StateValue) (t : list Access)
  : Prop :=
  match t with
  | [] => True
  | RunEntry v :: t' => exits_follow_entries (Some v) t'
  | RunExit v :: t' => entered = Some v ∧ exits_follow_entries None t'
  | _ :: t' => exits_follow_entries entered t'
  end.

(** The state whose entry effect ran last in a log, if no exit ran since. *)
Fixpoint entered_after (entered : option StateValue) (t : list Access)
  : option StateValue :=
  match t with
  | [] => entered
  | RunEntry v :: t' => entered_after (Some v) t'
  | RunExit _ :: t' => entered_after None t'
  | _ :: t' => entered_after entered t'
  end.

(** The pending cleanup belongs to the state entered last. *)
Definition cleanup_entered {Val} (h : Hook Val) (entered : option StateValue)
  : Prop :=
  ∀ v us, cleanup h = Some (v, us) → entered = Some v.

(** ** Machines used as concrete inputs *)

(** [c => ({ count: c.count + 1 })] *)
Definition count_up (c : gmap string Z) : gmap string Z :=
  {[ "count" := (default 0 (c !! "count") + 1)%Z ]}.

(** The toggle of the README; entering [active] counts the visit, and both
    states have an exit function. *)
Definition toggle : MachineConfig Z :=
  {| initial := "inactive";
     states := list_to_map
       [("inactive",
         {| on := Some [("TOGGLE", Shorthand "active")];
            effect := Some {| assigns := []; exit := Some [] |} |});
        ("active",
         {| on := Some [("TOGGLE", Shorthand "inactive")];
            effect := Some {| assigns := [count_up]; exit := Some [] |} |})] |}.

(** A toggle whose only transition is guarded by a constant and targets a
    state chosen by the caller. *)
Definition guarded (allow : bool) (target : string) : MachineConfig Z :=
  {| initial := "inactive";
     states := list_to_map
       [("inactive",
         {| on := Some [("TOGGLE",
                         TransitionObject target (Some (λ _ _, allow)))];
            effect := None |});
        ("active", {| on := None; effect := None |})] |}.

(** A machine with a state named by the empty string, reached by a
    shorthand transition. *)
Definition unnamed : MachineConfig Z :=
  {| initial := "start";
     states := list_to_map
       [("start", {| on := Some [("GO", Shorthand "")]; effect := None |});
        ("", {| on := Some [("BACK", Shorthand "start")]; effect := None |})] |}.

(** A machine whose transition targets a state that is not declared. *)
Definition dangling : MachineConfig Z :=
  {| initial := "start";
     states := list_to_map
       [("start", {| on := Some [("GO", Shorthand "nowhere")];
                     effect := None |})] |}.

(** A machine whose initial state is not declared. *)
Definition headless : MachineConfig Z :=
  {| initial := "lost";
     states := list_to_map
       [("start", {| on := None; effect := None |})] |}.

(** A machine whose initial state is not declared and bears the name of a
    member of [Object.prototype]. *)
Definition borrowed : MachineConfig Z :=
  {| initial := "toString";
     states := list_to_map
       [("start", {| on := Some [("GO", Shorthand "start")];
                     effect := None |})] |}.

(** The toggle with one more state, named [undefined]. *)
Definition toggle_undefined : MachineConfig Z :=
  {| initial := "inactive";
     states := list_to_map
       [("inactive",
         {| on := Some [("TOGGLE", Shorthand "active")]; effect := None |});
        ("active",
         {| on := Some [("TOGGLE", Shorthand "inactive")]; effect := None |});
        ("undefined",
         {| on := Some [("BACK", Shorthand "inactive")]; effect := None |})] |}.

Definition inactive0 : MachineState Z :=
  {| value := "inactive"; context := {[ "count" := 0%Z ]};
     nextEvents := ["TOGGLE"] |}.

Definition active1 : MachineState Z :=
  {| value := "active"; context := ∅; nextEvents := ["TOGGLE"] |}.

(** The hook of [toggle] after its first render. *)
Definition toggle_mounted : Hook Z :=
  {| machine := {| value := "inactive"; context := ∅;
                   nextEvents := ["TOGGLE"] |};
     deps := "inactive";
     cleanup := Some (Named "inactive", []);
     queue := [] |}.

(** The scenario of the README and of section 8: mount at [inactive],
    toggle to [active], deliver the context update its entry effect sent,
    toggle back. *)
Definition toggle_twice : M (Hook Z) :=
  h0 ← mount (Some {[ "count" := 0%Z ]}) toggle;
  h1 ← render toggle h0 (Event "TOGGLE");
  h2 ← next toggle h1;
  render toggle h2 (Event "TOGGLE").

Definition start0 : MachineState Z :=
  {| value := "start"; context := ∅; nextEvents := ["GO"] |}.

(** The hook of [toggle] after the first [TOGGLE]: the entry effect of
    [active] has sent its update. *)
Definition toggle_active : Hook Z :=
  {| machine := {| value := "active"; context := ∅;
                   nextEvents := ["TOGGLE"] |};
     deps := "active";
     cleanup := Some (Named "active", []);
     queue := [ContextUpdate count_up] |}.

(** A turnstile: pushing a locked one and paying an unlocked one stay where
    they are. *)
Definition turnstile : MachineConfig Z :=
  {| initial := "locked";
     states := list_to_map
       [("locked",
         {| on := Some [("COIN", Shorthand "unlocked");
                        ("PUSH", Shorthand "locked")];
            effect := None |});
        ("unlocked",
         {| on := Some [("PUSH", Shorthand "locked");
                        ("COIN", Shorthand "unlocked")];
            effect := None |})] |}.

Definition locked0 : MachineState Z :=
  {| value := "locked"; context := ∅; nextEvents := ["COIN"; "PUSH"] |}.

(** Two counted visits around one toggle. *)
Definition count_toggle_count : list (Message Z) :=
  [ContextUpdate count_up; Event "TOGGLE"; ContextUpdate count_up].

(** ** The monad *)

Lemma outcome_bind_Ok {A B} (m : M A) (k : A → M B) a :
  outcome m = Ok a → outcome (m ≫= k) = outcome (k a).
Proof.
  destruct m as [t r]; simpl; intros ->.
  unfold mbind, M_bind. by destruct (k a).
Qed.

(** ** Objects *)

Lemma get_own_is_Some {V} (o : Obj V) key :
  is_Some (get_own o key) ↔ key ∈ Object_keys o.
Proof.
  induction o as [|[k v] o IH]; simpl.
  - split; [by intros [? ?] | by intros ?%elem_of_nil].
  - rewrite elem_of_cons, <- IH.
    destruct (String.eqb_spec k key) as [->|Hne].
    + split; [by left | by eexists].
    + split; [by right | by intros [->|?]].
Qed.

Lemma own_of_index {V} (own : option V) key : own_of (index own key) = own.
Proof.
  unfold index. destruct own; [done|]. by destruct (Object_prototype key).
Qed.

Lemma own_of_Some {V} (found : Found V) v :
  own_of found = Some v ↔ found = Own v.
Proof. destruct found; simpl; split; congruence. Qed.

Lemma resolved_own {Val} (config : MachineConfig Val) v sc :
  states config !! key_of v = Some sc ↔ resolved config v = Own sc.
Proof. by rewrite <- own_of_Some; unfold resolved; rewrite own_of_index. Qed.

(** The keys the reducer stores are those of the own transitions that the
    next lookup will find. *)
Lemma on_keys_lookup {Val} (sc : MachineStateConfig Val) e :
  e ∈ on_keys sc ↔ is_Some (own_of (on_lookup (Own sc) e)).
Proof.
  unfold on_keys, on_lookup. destruct (on sc) as [o|]; simpl.
  - unfold get. rewrite own_of_index. symmetry. apply get_own_is_Some.
  - split; [by intros ?%elem_of_nil | by intros [? ?]].
Qed.

Lemma found_keys_lookup {Val} (config : MachineConfig Val) v e :
  e ∈ found_keys (resolved config v) ↔ is_Some (transition_of config v e).
Proof.
  unfold transition_of, next_of.
  destruct (resolved config v) as [sc|m|]; simpl.
  - apply on_keys_lookup.
  - split; [by intros ?%elem_of_nil | by intros [? ?]].
  - split; [by intros ?%elem_of_nil | by intros [? ?]].
Qed.

Lemma transition_of_Some {Val} (config : MachineConfig Val) v event t :
  transition_of config v event = Some t ↔ next_of config v event = Own t.
Proof. apply own_of_Some. Qed.

(** A state with a transition has an own definition. *)
Lemma transition_of_state {Val} (config : MachineConfig Val) v event t :
  transition_of config v event = Some t →
  ∃ sc, resolved config v = Own sc.
Proof.
  unfold transition_of, next_of.
  destruct (resolved config v) as [sc|m|]; [by eexists|done|done].
Qed.

(** ** The reducer, case by case *)

Lemma reducer_event {Val} (config : MachineConfig Val) state name :
  reducer config state (Event name) =
  match next_of config (value state) name with
  | NotFound => ([ReadState (value state)], Ok state)
  | Inherited _ =>
      ([ReadState (value state); ReadState Undefined],
       landed config state Undefined)
  | Own t =>
      if truthy t then
        match t with
        | TransitionObject target (Some guard) =>
            if guard (value state) name
            then ([ReadState (value state); CallGuard (value state) name;
                   ReadState target], landed config state target)
            else ([ReadState (value state); CallGuard (value state) name],
                  Ok state)
        | _ => ([ReadState (value state); ReadState (target_of t)],
                landed config state (target_of t))
        end
      else ([ReadState (value state)], Ok state)
  end.
Proof.
  unfold reducer, next_of, landed, read_state. cbn.
  destruct (on_lookup _ _) as [[s|target [guard|]]|m|]; cbn; try done.
  - destruct (String.eqb s ""); cbn; [done|]. by destruct (resolved config s).
  - destruct (guard _ _); cbn; [|done]. by destruct (resolved config target).
  - by destruct (resolved config target).
  - by destruct (resolved config Undefined).
Qed.

Lemma reducer_update {Val} (config : MachineConfig Val) state updater :
  reducer config state (ContextUpdate updater) =
  ([ReadState (value state)],
   Ok {| value := value state; context := updater (context state);
         nextEvents := nextEvents state |}).
Proof. reflexivity. Qed.

(** ** Context updates *)

(** C3.  A context-update message returns the snapshot with the updater
    applied to its context and with the same [value] and [nextEvents], and
    the returned snapshot does not depend on the configuration: any two
    configurations give the same result. *)
Theorem reducer_context_update {Val} (config config' : MachineConfig Val)
    (state : MachineState Val) (updater : gmap string Val → gmap string Val) :
  outcome (reducer config state (ContextUpdate updater)) =
    Ok {| value := value state; context := updater (context state);
          nextEvents := nextEvents state |} ∧
  outcome (reducer config state (ContextUpdate updater)) =
    outcome (reducer config' state (ContextUpdate updater)).
Proof. by rewrite !reducer_update. Qed.

(** ** Events that do not move the machine *)

Lemma dispatch_n_fixed {Val} (config : MachineConfig Val) state event n :
  outcome (reducer config state (Event event)) = Ok state →
  outcome (dispatch_n config n state event) = Ok state.
Proof.
  intros Hfix. induction n as [|n IH]; simpl; [done|].
  by rewrite (outcome_bind_Ok _ _ _ Hfix).
Qed.

(** C5.  When [config.states[S]?.on?.[E]] is undefined, dispatching [E] from
    a snapshot at [S] returns that snapshot and raises nothing, and so does
    dispatching it any number of times in a row. *)
Theorem reducer_unrecognized_event {Val} (config : MachineConfig Val)
    (state : MachineState Val) (event : string) :
  next_of config (value state) event = NotFound →
  outcome (reducer config state (Event event)) = Ok state ∧
  ∀ n, outcome (dispatch_n config (S n) state event) =
       outcome (reducer config state (Event event)).
Proof.
  intros Hnone.
  assert (outcome (reducer config state (Event event)) = Ok state) as Hfix
    by (by rewrite reducer_event, Hnone).
  split; [done|]. intros n. rewrite Hfix. by apply dispatch_n_fixed.
Qed.

Lemma reducer_unrecognized_event_witness :
  outcome (reducer toggle inactive0 (Event "RESET")) = Ok inactive0 ∧
  ∀ n, outcome (dispatch_n toggle (S n) inactive0 "RESET") =
       outcome (reducer toggle inactive0 (Event "RESET")).
Proof. apply (reducer_unrecognized_event toggle inactive0 "RESET"). reflexivity. Defined.

(** C9.  A shorthand transition whose target is the empty string is falsy:
    the reducer reads the current state, returns the snapshot it was given
    and never moves to the state named by the empty string. *)
Theorem reducer_empty_shorthand {Val} (config : MachineConfig Val)
    (state : MachineState Val) (event : string) :
  transition_of config (value state) event = Some (Shorthand "") →
  reducer config state (Event event) = ([ReadState (value state)], Ok state).
Proof. intros Ht%transition_of_Some. by rewrite reducer_event, Ht. Qed.

Lemma reducer_empty_shorthand_witness :
  reducer unnamed start0 (Event "GO") = ([ReadState "start"], Ok start0).
Proof. apply (reducer_empty_shorthand unnamed start0 "GO"). reflexivity. Defined.

(** ** Guards *)

(** C4.  For a transition in object form with a guard, the reducer calls the
    guard once, on the state value and the event name (the context is not
    among the arguments), and the answer decides: when the guard returns
    false the snapshot is returned as it was, and when it returns true the
    reducer goes on to the target. *)
Theorem reducer_guard_denied {Val} (config : MachineConfig Val)
    (state : MachineState Val) (event target : string)
    (guard : StateValue → string → bool) :
  transition_of config (value state) event =
    Some (TransitionObject target (Some guard)) →
  guard_calls (trace (reducer config state (Event event))) =
    [CallGuard (value state) event] ∧
  outcome (reducer config state (Event event)) =
    if guard (value state) event
    then landed config state target
    else Ok state.
Proof.
  intros Ht%transition_of_Some. rewrite reducer_event, Ht. simpl.
  by destruct (guard _ _).
Qed.

Lemma reducer_guard_denied_witness :
  (guard_calls (trace (reducer (guarded false "active") inactive0
                         (Event "TOGGLE"))) =
     [CallGuard "inactive" "TOGGLE"] ∧
   outcome (reducer (guarded false "active") inactive0 (Event "TOGGLE")) =
     Ok inactive0) ∧
  (guard_calls (trace (reducer (guarded true "active") inactive0
                         (Event "TOGGLE"))) =
     [CallGuard "inactive" "TOGGLE"] ∧
   outcome (reducer (guarded true "active") inactive0 (Event "TOGGLE")) =
     Ok {| value := "active"; context := {[ "count" := 0%Z ]};
           nextEvents := [] |}).
Proof.
  split.
  - apply (reducer_guard_denied (guarded false "active") inactive0 "TOGGLE"
             "active" (λ _ _, false)). reflexivity.
  - apply (reducer_guard_denied (guarded true "active") inactive0 "TOGGLE"
             "active" (λ _ _, true)). reflexivity.
Defined.

(** C6.  A denied guard ends the reducer before the read of
    [config.states[target]]: the log stops at the guard call and the
    snapshot is returned, whether or not the target is declared; with the
    same transition and a guard that passes, the target is read after the
    guard call, and the reducer raises when that read finds nothing. *)
Theorem reducer_denial_before_target_lookup {Val} (config : MachineConfig Val)
    (state : MachineState Val) (event target : string)
    (guard : StateValue → string → bool) :
  transition_of config (value state) event =
    Some (TransitionObject target (Some guard)) →
  guard (value state) event = false →
  reducer config state (Event event) =
    ([ReadState (value state); CallGuard (value state) event], Ok state) ∧
  ∀ (config' : MachineConfig Val) (guard' : StateValue → string → bool),
    transition_of config' (value state) event =
      Some (TransitionObject target (Some guard')) →
    guard' (value state) event = true →
    trace (reducer config' state (Event event)) =
      [ReadState (value state); CallGuard (value state) event;
       ReadState target] ∧
    (resolved config' target = NotFound →
     outcome (reducer config' state (Event event)) = TypeError).
Proof.
  intros Ht%transition_of_Some Hg. split; [by rewrite reducer_event, Ht, Hg|].
  intros config' guard' Ht'%transition_of_Some Hg'.
  rewrite reducer_event, Ht', Hg'. split; [done|].
  intros Hmissing. simpl. unfold landed. by rewrite Hmissing.
Qed.

Lemma reducer_denial_before_target_lookup_witness :
  resolved (guarded false "missing") "missing" = NotFound ∧
  reducer (guarded false "missing") inactive0 (Event "TOGGLE") =
    ([ReadState "inactive"; CallGuard "inactive" "TOGGLE"], Ok inactive0) ∧
  reducer (guarded true "missing") inactive0 (Event "TOGGLE") =
    ([ReadState "inactive"; CallGuard "inactive" "TOGGLE"; ReadState "missing"],
     TypeError).
Proof.
  destruct (reducer_denial_before_target_lookup (guarded false "missing")
              inactive0 "TOGGLE" "missing" (λ _ _, false)) as [Hdenied Hpass];
    [reflexivity | reflexivity |].
  split; [reflexivity|]. split; [exact Hdenied|].
  destruct (Hpass (guarded true "missing") (λ _ _, true)) as [Hlog Hraise];
    [reflexivity | reflexivity |].
  specialize (Hraise eq_refl).
  destruct (reducer (guarded true "missing") inactive0 (Event "TOGGLE"))
    as [t r].
  simpl in Hlog, Hraise. by rewrite Hlog, Hraise.
Defined.

(** ** Transitions that are taken *)

Lemma truthy_not_empty (t : Transition) : t ≠ Shorthand "" → truthy t = true.
Proof.
  destruct t as [s|target guard]; simpl; [|done].
  intros Hne. destruct (String.eqb_spec s "") as [->|]; [by destruct Hne | done].
Qed.

Lemma on_keys_cases {Val} (sc : MachineStateConfig Val) :
  on_keys sc = match on sc with Some o => Object_keys o | None => [] end.
Proof. unfold on_keys. by destruct (on sc). Qed.

(** The reducer's result for a truthy transition whose guard passes. *)
Lemma reducer_allowed {Val} (config : MachineConfig Val) state event t :
  transition_of config (value state) event = Some t →
  truthy t = true →
  guard_passes t (value state) event = true →
  outcome (reducer config state (Event event)) =
    landed config state (target_of t).
Proof.
  intros Ht%transition_of_Some Htruthy Hpass.
  rewrite reducer_event, Ht, Htruthy.
  destruct t as [s|target [guard|]]; simpl in *; [done| |done].
  by rewrite Hpass.
Qed.

(** C1, the claim as stated, fails on two inputs.  In [dangling] the
    transition on [GO] is present and unguarded and its target is not
    declared: the reducer raises.  In [unnamed] the transition on [GO] is
    present and unguarded and its target, the empty string, is declared: the
    reducer returns the snapshot at [start]. *)
Lemma reducer_present_transition_counterexample :
  (transition_of dangling (value start0) "GO" = Some (Shorthand "nowhere") ∧
   guard_passes (Shorthand "nowhere") (value start0) "GO" = true ∧
   outcome (reducer dangling start0 (Event "GO")) = TypeError ∧
   ¬ takes_transition dangling start0 "GO" (Shorthand "nowhere")) ∧
  (transition_of unnamed (value start0) "GO" = Some (Shorthand "") ∧
   guard_passes (Shorthand "") (value start0) "GO" = true ∧
   is_Some (states unnamed !! "") ∧
   outcome (reducer unnamed start0 (Event "GO")) = Ok start0 ∧
   ¬ takes_transition unnamed start0 "GO" (Shorthand "")).
Proof.
  split.
  - do 3 (split; [reflexivity|]).
    intros (state' & Hout & _). vm_compute in Hout. discriminate Hout.
  - do 2 (split; [reflexivity|]). split; [by eexists|]. split; [reflexivity|].
    intros (state' & Hout & Hvalue & _).
    vm_compute in Hout. injection Hout as <-. discriminate Hvalue.
Qed.

(** C1, amended.  When the transition configured for the event is present
    and is not the empty shorthand string, its guard is absent or returns
    true, and its target is declared in [config.states], the reducer returns
    a snapshot at the target, with the context of the snapshot it was given
    and with the keys of the target's [on] map as next events, none when the
    target has no [on] map. *)
Theorem reducer_takes_transition {Val} (config : MachineConfig Val)
    (state : MachineState Val) (event : string) (t : Transition)
    (sc : MachineStateConfig Val) :
  transition_of config (value state) event = Some t →
  t ≠ Shorthand "" →
  guard_passes t (value state) event = true →
  states config !! target_of t = Some sc →
  outcome (reducer config state (Event event)) =
    Ok {| value := target_of t; context := context state;
          nextEvents := match on sc with
                        | Some o => Object_keys o
                        | None => []
                        end |} ∧
  takes_transition config state event t.
Proof.
  intros Ht Hne Hpass Hsc.
  assert (resolved config (Named (target_of t)) = Own sc) as Hown
    by (by apply resolved_own).
  assert (outcome (reducer config state (Event event)) =
          Ok {| value := target_of t; context := context state;
                nextEvents := on_keys sc |}) as Hout.
  { rewrite (reducer_allowed _ _ _ _ Ht (truthy_not_empty _ Hne) Hpass).
    unfold landed. by rewrite Hown. }
  split; [by rewrite <- on_keys_cases|].
  eexists. split; [exact Hout|]. simpl. do 2 (split; [done|]).
  intros e. rewrite <- found_keys_lookup. by rewrite Hown.
Qed.

Lemma reducer_takes_transition_witness :
  outcome (reducer toggle inactive0 (Event "TOGGLE")) =
    Ok {| value := "active"; context := {[ "count" := 0%Z ]};
          nextEvents := ["TOGGLE"] |} ∧
  takes_transition toggle inactive0 "TOGGLE" (Shorthand "active").
Proof.
  apply (reducer_takes_transition toggle inactive0 "TOGGLE" (Shorthand "active")
           {| on := Some [("TOGGLE", Shorthand "inactive")];
              effect := Some {| assigns := [count_up]; exit := Some [] |} |});
    [reflexivity | discriminate | reflexivity | reflexivity].
Defined.

(** ** The invariant of [nextEvents] *)

Lemma get_own_Some_elem_of {V} (o : Obj V) key v :
  get_own o key = Some v → (key, v) ∈ o.
Proof.
  induction o as [|[k w] o IH]; simpl; [done|].
  destruct (String.eqb_spec k key) as [->|_].
  - intros [= ->]. by left.
  - intros ?. right. by apply IH.
Qed.

Lemma targets_declared_check {Val} (config : MachineConfig Val) :
  all_targets_declared config → targets_declared config.
Proof.
  intros Hall v event t. unfold transition_of, next_of, on_lookup.
  destruct (resolved config v) as [sc|m|] eqn:Hsc; [|done|done].
  apply resolved_own in Hsc.
  specialize (Hall (key_of v) sc Hsc). simpl in Hall.
  destruct (on sc) as [o|]; [|done]. simpl in Hall.
  unfold get. rewrite own_of_index.
  intros Hget%get_own_Some_elem_of.
  rewrite Forall_forall in Hall. apply (Hall (event, t) Hget).
Qed.

Lemma nextEvents_current_found {Val} (config : MachineConfig Val) s :
  nextEvents_current config s ↔
  resolved config (value s) ≠ NotFound ∧
  nextEvents s = found_keys (resolved config (value s)).
Proof.
  unfold nextEvents_current.
  destruct (resolved config (value s)) as [sc|m|]; simpl.
  - rewrite on_keys_cases. split; [by intros -> | by intros [_ ->]].
  - split; [by intros -> | by intros [_ ->]].
  - split; [done | by intros [? _]].
Qed.

Lemma landed_Ok {Val} (config : MachineConfig Val) s target s' :
  landed config s target = Ok s' →
  resolved config target ≠ NotFound ∧
  s' = {| value := target; context := context s;
          nextEvents := found_keys (resolved config target) |}.
Proof.
  unfold landed.
  destruct (resolved config target) as [sc|m|]; [| |done];
    by intros [= <-].
Qed.

Lemma landed_nextEvents {Val} (config : MachineConfig Val) s target s' :
  landed config s target = Ok s' → nextEvents_current config s'.
Proof.
  intros [Hfound ->]%landed_Ok. by apply nextEvents_current_found.
Qed.

Lemma initialState_eq {Val} ctx (config : MachineConfig Val) :
  initialState ctx config =
  ([ReadState (initial config)],
   landed config {| value := initial config; context := default ∅ ctx;
                    nextEvents := [] |} (initial config)).
Proof.
  unfold initialState, read_state, landed. cbn.
  by destruct (resolved config (initial config)).
Qed.

Lemma initialState_Ok {Val} ctx (config : MachineConfig Val) s :
  outcome (initialState ctx config) = Ok s →
  resolved config (initial config) ≠ NotFound ∧
  s = {| value := initial config; context := default ∅ ctx;
         nextEvents := found_keys (resolved config (initial config)) |}.
Proof. rewrite initialState_eq. apply landed_Ok. Qed.

Lemma initialState_nextEvents {Val} ctx (config : MachineConfig Val) s :
  outcome (initialState ctx config) = Ok s → nextEvents_current config s.
Proof. rewrite initialState_eq. apply landed_nextEvents. Qed.

(** A step of the reducer returns the snapshot it was given, or that
    snapshot with a new context, or a snapshot built by the last statement
    of the reducer. *)
Lemma reducer_Ok_cases {Val} (config : MachineConfig Val) s message s' :
  outcome (reducer config s message) = Ok s' →
  (value s' = value s ∧ nextEvents s' = nextEvents s) ∨
  (∃ target, landed config s target = Ok s').
Proof.
  destruct message as [event|updater].
  - rewrite reducer_event.
    destruct (next_of _ _ _) as [t|m|]; simpl;
      [|by right; eexists|intros [= <-]; by left].
    destruct (truthy t); [|intros [= <-]; by left].
    destruct t as [target|target [guard|]]; simpl; try (by right; eexists).
    destruct (guard _ _); simpl; [by right; eexists|].
    intros [= <-]. by left.
  - rewrite reducer_update. intros [= <-]. by left.
Qed.

Lemma reducer_nextEvents {Val} (config : MachineConfig Val) s message s' :
  nextEvents_current config s →
  outcome (reducer config s message) = Ok s' →
  nextEvents_current config s'.
Proof.
  intros Hcur [[Hv Hn]|[target Hlanded]]%reducer_Ok_cases.
  - unfold nextEvents_current in *. by rewrite Hv, Hn.
  - by eapply landed_nextEvents.
Qed.

Lemma reachable_nextEvents_current {Val} ctx (config : MachineConfig Val) s :
  reachable ctx config s → nextEvents_current config s.
Proof.
  induction 1 as [s Hinit|s message s' _ IH Hstep].
  - by eapply initialState_nextEvents.
  - by eapply reducer_nextEvents.
Qed.

(** With every target declared, the reducer returns a snapshot for every
    message that does not take a member of [Object.prototype] for a
    transition. *)
Lemma reducer_total {Val} (config : MachineConfig Val) s message :
  targets_declared config →
  (∀ event m, message = Event event →
              next_of config (value s) event ≠ Inherited m) →
  ∃ s', outcome (reducer config s message) = Ok s'.
Proof.
  intros Hdecl Hown. destruct message as [event|updater].
  - rewrite reducer_event.
    destruct (next_of _ _ _) as [t|m|] eqn:Ht;
      [|by destruct (Hown event m)|by eexists].
    apply transition_of_Some in Ht.
    destruct (Hdecl _ _ _ Ht) as [sc Hsc].
    assert (∃ s', landed config s (target_of t) = Ok s') as Hlanded.
    { unfold landed.
      assert (resolved config (Named (target_of t)) = Own sc) as ->
        by (by apply resolved_own).
      by eexists. }
    destruct (truthy t); [|by eexists].
    destruct t as [target|target [guard|]]; simpl in *; try done.
    destruct (guard _ _); simpl; [done | by eexists].
  - rewrite reducer_update. by eexists.
Qed.

(** C2.  Every reachable snapshot lists as next events the keys of the
    [on] map of what [config.states[value]] finds, none when that has no
    [on] map, and every snapshot the reducer returns from it does so too;
    a context update keeps [value] and [nextEvents] as they were.  In a
    configuration whose transitions all target declared states, the reducer
    returns for every message that does not take a member of
    [Object.prototype] for a transition. *)
Theorem reachable_nextEvents {Val} (ctx : option (gmap string Val))
    (config : MachineConfig Val) (s : MachineState Val) :
  targets_declared config →
  reachable ctx config s →
  nextEvents_current config s ∧
  (∀ e, e ∈ nextEvents s ↔ is_Some (transition_of config (value s) e)) ∧
  (∀ message s', outcome (reducer config s message) = Ok s' →
                 nextEvents_current config s') ∧
  (∀ message,
     (∀ event m, message = Event event →
                 next_of config (value s) event ≠ Inherited m) →
     ∃ s', outcome (reducer config s message) = Ok s') ∧
  (∀ updater s', outcome (reducer config s (ContextUpdate updater)) = Ok s' →
                 value s' = value s ∧ nextEvents s' = nextEvents s).
Proof.
  intros Hdecl Hreach.
  pose proof (reachable_nextEvents_current _ _ _ Hreach) as Hcur.
  split; [done|]. split; [|split; [|split]].
  - apply nextEvents_current_found in Hcur as [_ ->].
    intros e. apply found_keys_lookup.
  - intros message s'. by apply reducer_nextEvents.
  - intros message Hown. by apply reducer_total.
  - intros updater s'. rewrite reducer_update. by intros [= <-].
Qed.

Lemma reachable_nextEvents_witness :
  nextEvents_current toggle active1 ∧
  (∀ e, e ∈ nextEvents active1 ↔ is_Some (transition_of toggle (value active1) e)) ∧
  (∀ message s', outcome (reducer toggle active1 message) = Ok s' →
                 nextEvents_current toggle s') ∧
  (∀ message,
     (∀ event m, message = Event event →
                 next_of toggle (value active1) event ≠ Inherited m) →
     ∃ s', outcome (reducer toggle active1 message) = Ok s') ∧
  (∀ updater s', outcome (reducer toggle active1 (ContextUpdate updater)) = Ok s' →
                 value s' = value active1 ∧ nextEvents s' = nextEvents active1).
Proof.
  apply (reachable_nextEvents None toggle active1).
  - apply targets_declared_check.
    apply (bool_decide_unpack _). vm_compute. exact I.
  - apply (reachable_step _ _ _
             {| value := "inactive"; context := ∅; nextEvents := ["TOGGLE"] |}
             (Event "TOGGLE")).
    + apply reachable_initial. reflexivity.
    + reflexivity.
Defined.

(** ** Construction *)

(** C7, the claim as stated, fails for an initial state that is not
    declared and bears the name of a member of [Object.prototype]: in
    [borrowed], [config.states["toString"]] is the inherited function, its
    [on] is undefined, and the initial snapshot is built with no next
    events; the first render returns and a dispatch returns too. *)
Lemma initialState_inherited_counterexample :
  states borrowed !! initial borrowed = None ∧
  initialState None borrowed =
    ([ReadState "toString"],
     Ok {| value := "toString"; context := ∅; nextEvents := [] |}) ∧
  outcome (mount None borrowed) =
    Ok {| machine := {| value := "toString"; context := ∅;
                        nextEvents := [] |};
          deps := "toString"; cleanup := None; queue := [] |} ∧
  outcome (reducer borrowed
             {| value := "toString"; context := ∅; nextEvents := [] |}
             (Event "GO")) =
    Ok {| value := "toString"; context := ∅; nextEvents := [] |}.
Proof. repeat split. Qed.

(** C7, amended.  When [config.initial] is neither declared in
    [config.states] nor the name of a member of [Object.prototype], building
    the initial snapshot raises on the read of
    [config.states[config.initial].on], and so does the first render: no
    snapshot is produced and no effect runs. *)
Theorem initialState_missing_initial {Val} (ctx : option (gmap string Val))
    (config : MachineConfig Val) :
  states config !! initial config = None →
  Object_prototype (initial config) = None →
  initialState ctx config = ([ReadState (initial config)], TypeError) ∧
  mount ctx config = ([ReadState (initial config)], TypeError).
Proof.
  intros Hmissing Hproto.
  assert (initialState ctx config = ([ReadState (initial config)], TypeError))
    as Hinit.
  { rewrite initialState_eq. unfold landed, resolved, index. simpl.
    by rewrite Hmissing, Hproto. }
  split; [done|]. unfold mount. by rewrite Hinit.
Qed.

Lemma initialState_missing_initial_witness :
  initialState None headless = ([ReadState "lost"], TypeError) ∧
  mount None headless = ([ReadState "lost"], TypeError).
Proof.
  apply (initialState_missing_initial None headless); reflexivity.
Defined.

(** C10.  Without an initial context argument the initial snapshot carries
    the empty record, and the first context update applies its updater to
    the empty record. *)
Theorem initialState_default_context {Val} (config : MachineConfig Val)
    (sc : MachineStateConfig Val) :
  states config !! initial config = Some sc →
  outcome (initialState None config) =
    Ok {| value := initial config; context := ∅; nextEvents := on_keys sc |} ∧
  ∀ updater : gmap string Val → gmap string Val,
    outcome (s ← initialState None config;
             reducer config s (ContextUpdate updater)) =
      Ok {| value := initial config; context := updater ∅;
            nextEvents := on_keys sc |}.
Proof.
  intros Hsc.
  assert (outcome (initialState None config) =
          Ok {| value := initial config; context := ∅;
                nextEvents := on_keys sc |}) as Hinit.
  { rewrite initialState_eq. simpl. unfold landed.
    assert (resolved config (Named (initial config)) = Own sc) as ->
      by (by apply resolved_own).
    done. }
  split; [done|]. intros updater.
  by rewrite (outcome_bind_Ok _ _ _ Hinit), reducer_update.
Qed.

Lemma initialState_default_context_witness :
  outcome (initialState None toggle) =
    Ok {| value := "inactive"; context := ∅; nextEvents := ["TOGGLE"] |} ∧
  ∀ updater : gmap string Z → gmap string Z,
    outcome (s ← initialState None toggle;
             reducer toggle s (ContextUpdate updater)) =
      Ok {| value := "inactive"; context := updater ∅;
            nextEvents := ["TOGGLE"] |}.
Proof.
  apply (initialState_default_context toggle
           {| on := Some [("TOGGLE", Shorthand "active")];
              effect := Some {| assigns := []; exit := Some [] |} |}).
  reflexivity.
Defined.

(** ** Members of [Object.prototype] in the reducer *)

(** An event named like an inherited member is taken for a transition
    without target: the reducer goes on to [config.states[undefined]]. *)
Example constructor_event_raises :
  reducer toggle inactive0 (Event "constructor") =
    ([ReadState "inactive"; ReadState Undefined], TypeError).
Proof. reflexivity. Qed.

(** With a state named [undefined] the same event stores [undefined] as the
    state value. *)
Example constructor_event_undefined :
  reducer toggle_undefined inactive0 (Event "constructor") =
    ([ReadState "inactive"; ReadState Undefined],
     Ok {| value := Undefined; context := {[ "count" := 0%Z ]};
           nextEvents := ["BACK"] |}).
Proof. reflexivity. Qed.

(** A target named like an inherited member is found: the snapshot moves
    there and lists no next events. *)
Example constructor_target_found :
  reducer (guarded true "constructor") inactive0 (Event "TOGGLE") =
    ([ReadState "inactive"; CallGuard "inactive" "TOGGLE";
      ReadState "constructor"],
     Ok {| value := "constructor"; context := {[ "count" := 0%Z ]};
           nextEvents := [] |}).
Proof. reflexivity. Qed.

(** ** Effects *)

Lemma effect_runs_app t1 t2 :
  effect_runs (t1 ++ t2) = effect_runs t1 ++ effect_runs t2.
Proof. apply List.filter_app. Qed.

Lemma reducer_no_effect_runs {Val} (config : MachineConfig Val) s message :
  effect_runs (trace (reducer config s message)) = [].
Proof.
  destruct message as [event|updater]; [|done].
  rewrite reducer_event.
  destruct (next_of _ _ _) as [t|m|]; [|done|done].
  destruct (truthy t); [|done].
  destruct t as [target|target [guard|]]; try done.
  by destruct (guard _ _).
Qed.

Lemma initialState_no_effect_runs {Val} ctx (config : MachineConfig Val) :
  effect_runs (trace (initialState ctx config)) = [].
Proof. by rewrite initialState_eq. Qed.

Lemma run_effect_eq {Val} (config : MachineConfig Val) m :
  run_effect config m =
  (ReadState (value m) :: entry_run config (value m),
   Ok (sent_on_entry config (value m), exit_of config (value m))).
Proof.
  unfold run_effect, read_state, entry_run, sent_on_entry, exit_of, effect_of.
  cbn. by destruct (found_effect (resolved config (value m))).
Qed.

Lemma run_cleanup_eq {Val} (config : MachineConfig Val) v :
  run_cleanup (exit_of config v) = (exit_run config v, Ok (sent_on_exit config v)).
Proof.
  unfold run_cleanup, exit_run, sent_on_exit.
  destruct (exit_of config v) as [[owner us]|] eqn:Hexit; [|done].
  unfold exit_of in Hexit. destruct (effect_of config v) as [e|]; [|done].
  destruct (exit e); by simplify_eq/=.
Qed.

Lemma mount_Ok {Val} ctx (config : MachineConfig Val) m :
  outcome (initialState ctx config) = Ok m →
  mount ctx config =
  (trace (initialState ctx config) ++
     ReadState (value m) :: entry_run config (value m),
   Ok {| machine := m; deps := value m;
         cleanup := exit_of config (value m);
         queue := sent_on_entry config (value m) |}).
Proof.
  unfold mount, useEffect.
  destruct (initialState ctx config) as [t [m0|]]; simpl; [|done].
  intros [= ->]. rewrite run_effect_eq. cbn. by rewrite !app_nil_r.
Qed.

Lemma render_Ok {Val} (config : MachineConfig Val) h message m' :
  deps h = value (machine h) →
  cleanup h = exit_of config (value (machine h)) →
  outcome (reducer config (machine h) message) = Ok m' →
  render config h message =
  if bool_decide (value (machine h) = value m')
  then (trace (reducer config (machine h) message),
        Ok {| machine := m'; deps := deps h; cleanup := cleanup h;
              queue := queue h |})
  else (trace (reducer config (machine h) message) ++
          exit_run config (value (machine h)) ++
          ReadState (value m') :: entry_run config (value m'),
        Ok {| machine := m'; deps := value m';
              cleanup := exit_of config (value m');
              queue := queue h ++ sent_on_exit config (value (machine h)) ++
                       sent_on_entry config (value m') |}).
Proof.
  intros Hdeps Hcleanup. unfold render, useEffect.
  destruct (reducer config (machine h) message) as [t [m0|]]; simpl; [|done].
  intros [= ->]. rewrite Hdeps, Hcleanup, run_effect_eq, run_cleanup_eq.
  destruct (bool_decide _); cbn; rewrite ?app_nil_r; done.
Qed.

Lemma stays_value {Val} (config : MachineConfig Val) s message :
  stays config s message = true →
  ∃ s', outcome (reducer config s message) = Ok s' ∧ value s' = value s.
Proof.
  destruct message as [event|updater]; simpl.
  - rewrite reducer_event. destruct (next_of _ _ _) as [t|m|];
      [|done|by eexists].
    destruct t as [target|target [guard|]]; simpl; try done.
    intros ->%negb_true_iff. by eexists.
  - intros _. by eexists.
Qed.

Lemma updates_are_updates {Val} (us : list (gmap string Val → gmap string Val)) :
  Forall is_update (map ContextUpdate us).
Proof. induction us as [|u us IH]; simpl; by constructor. Qed.

Lemma sent_on_entry_updates {Val} (config : MachineConfig Val) v :
  Forall is_update (sent_on_entry config v).
Proof.
  unfold sent_on_entry. destruct (effect_of config v); [|done].
  apply updates_are_updates.
Qed.

Lemma sent_on_exit_updates {Val} (config : MachineConfig Val) v :
  Forall is_update (sent_on_exit config v).
Proof.
  unfold sent_on_exit. destruct (exit_of config v) as [[? us]|]; [|done].
  apply updates_are_updates.
Qed.

Lemma render_hook_ok {Val} (config : MachineConfig Val) h message h' :
  deps h = value (machine h) →
  cleanup h = exit_of config (value (machine h)) →
  Forall is_update (queue h) →
  outcome (render config h message) = Ok h' →
  hook_ok config h'.
Proof.
  intros Hdeps Hcleanup Hqueue.
  destruct (reducer config (machine h) message) as [t [m'|]] eqn:Hred.
  - rewrite (render_Ok _ _ _ m' Hdeps Hcleanup) by (by rewrite Hred).
    destruct (decide (value (machine h) = value m')) as [Heq|Hne].
    + rewrite bool_decide_true by done. simpl.
      intros [= <-]; unfold hook_ok; simpl.
      by rewrite Hdeps, Hcleanup, Heq.
    + rewrite bool_decide_false by done. simpl.
      intros [= <-]; unfold hook_ok; simpl.
      repeat split; try done. rewrite !Forall_app.
      auto using sent_on_entry_updates, sent_on_exit_updates.
  - unfold render. by rewrite Hred.
Qed.

Lemma mount_outcome {Val} ctx (config : MachineConfig Val) h :
  outcome (mount ctx config) = Ok h →
  ∃ m, outcome (initialState ctx config) = Ok m ∧
       h = {| machine := m; deps := value m;
              cleanup := exit_of config (value m);
              queue := sent_on_entry config (value m) |}.
Proof.
  destruct (initialState ctx config) as [t [m|]] eqn:Hinit.
  - rewrite (mount_Ok _ _ m) by (by rewrite Hinit). simpl.
    intros [= <-]. by exists m.
  - unfold mount. by rewrite Hinit.
Qed.

Lemma next_render {Val} (config : MachineConfig Val) h message rest :
  queue h = message :: rest →
  next config h =
  render config {| machine := machine h; deps := deps h;
                   cleanup := cleanup h; queue := rest |} message.
Proof. unfold next. by intros ->. Qed.

Lemma hook_reachable_ok {Val} ctx (config : MachineConfig Val) h :
  hook_reachable ctx config h → hook_ok config h.
Proof.
  induction 1 as [h Hmount|h message h' _ IH Hrender|h h' _ IH Hnext].
  - apply mount_outcome in Hmount as (m & _ & ->).
    repeat split. apply sent_on_entry_updates.
  - destruct IH as (Hdeps & Hcleanup & Hqueue). by eapply render_hook_ok.
  - destruct IH as (Hdeps & Hcleanup & Hqueue).
    destruct (queue h) as [|message rest] eqn:Hq.
    + unfold next in Hnext. rewrite Hq in Hnext. simpl in Hnext.
      injection Hnext as <-. repeat split; try done. by rewrite Hq.
    + rewrite (next_render _ _ _ _ Hq) in Hnext.
      eapply render_hook_ok; [| | |exact Hnext]; simpl; try done.
      by inversion Hqueue.
Qed.

Lemma hook_reachable_mounted {Val} ctx (config : MachineConfig Val) h :
  hook_reachable ctx config h → ∃ h0, outcome (mount ctx config) = Ok h0.
Proof. induction 1; [by eexists | done | done]. Qed.

Lemma effect_runs_exit_run {Val} (config : MachineConfig Val) v :
  effect_runs (exit_run config v) = exit_run config v.
Proof. unfold exit_run. by destruct (exit_of config v). Qed.

Lemma effect_runs_entry_run {Val} (config : MachineConfig Val) v :
  effect_runs (entry_run config v) = entry_run config v.
Proof. unfold entry_run. by destruct (effect_of config v). Qed.

(** What a render does once the reducer has returned [s']: the hook holds
    [s'], and the effects that run are decided by the comparison of the
    state values. *)
Lemma render_effect_runs {Val} (config : MachineConfig Val) h message s' :
  deps h = value (machine h) →
  cleanup h = exit_of config (value (machine h)) →
  outcome (reducer config (machine h) message) = Ok s' →
  ∃ h', outcome (render config h message) = Ok h' ∧
        machine h' = s' ∧
        (value s' ≠ value (machine h) →
           effect_runs (trace (render config h message)) =
             exit_run config (value (machine h)) ++
             entry_run config (value s') ∧
           queue h' = queue h ++ sent_on_exit config (value (machine h)) ++
                      sent_on_entry config (value s')) ∧
        (value s' = value (machine h) →
           effect_runs (trace (render config h message)) = [] ∧
           queue h' = queue h).
Proof.
  intros Hdeps Hcleanup Hred.
  pose proof (reducer_no_effect_runs config (machine h) message) as Hnone.
  rewrite (render_Ok _ _ _ _ Hdeps Hcleanup Hred).
  destruct (decide (value (machine h) = value s')) as [Heq|Hne].
  - rewrite bool_decide_true by done. eexists. split; [done|]. simpl.
    split; [done|]. split; [intros Hx; by destruct Hx|].
    by intros _; split.
  - rewrite bool_decide_false by done. eexists. split; [done|]. simpl.
    split; [done|]. split; [|intros Heq; by destruct Hne].
    intros _. split; [|done].
    rewrite !effect_runs_app, Hnone. simpl.
    fold (effect_runs (entry_run config (value s'))).
    by rewrite effect_runs_exit_run, effect_runs_entry_run.
Qed.

(** C8.  For a hook reached by a first render followed by renders, one per
    message.  The first render holds the initial snapshot and runs the entry
    effect of the initial state, if it has one, and nothing else.  When the
    reducer returns a snapshot for a message, the render holds that
    snapshot; if its state value differs from the previous one, the exit
    function returned by the entry effect of the previous state runs, if
    there is one, then the entry effect of the new state, if there is one,
    and the updaters both pass to [update] are sent as context updates; if
    the state value is the same, no effect runs.  A context update, an event
    without transition and an event denied by its guard give a render of
    the second kind, and so does the delivery of a queued message. *)
Theorem effects_follow_value_changes {Val} (ctx : option (gmap string Val))
    (config : MachineConfig Val) (h : Hook Val) :
  hook_reachable ctx config h →
  (∃ s0 h0, outcome (initialState ctx config) = Ok s0 ∧
            outcome (mount ctx config) = Ok h0 ∧
            machine h0 = s0 ∧
            value s0 = initial config ∧
            effect_runs (trace (mount ctx config)) =
              entry_run config (initial config)) ∧
  (∀ message s', outcome (reducer config (machine h) message) = Ok s' →
     ∃ h', outcome (render config h message) = Ok h' ∧
           machine h' = s' ∧
           (value s' ≠ value (machine h) →
              effect_runs (trace (render config h message)) =
                exit_run config (value (machine h)) ++
                entry_run config (value s') ∧
              queue h' = queue h ++
                         sent_on_exit config (value (machine h)) ++
                         sent_on_entry config (value s')) ∧
           (value s' = value (machine h) →
              effect_runs (trace (render config h message)) = [] ∧
              queue h' = queue h)) ∧
  (∀ message, stays config (machine h) message = true →
     ∃ h', outcome (render config h message) = Ok h' ∧
           outcome (reducer config (machine h) message) = Ok (machine h') ∧
           value (machine h') = value (machine h) ∧
           effect_runs (trace (render config h message)) = []) ∧
  (∃ h', outcome (next config h) = Ok h' ∧
         match queue h with
         | [] => h' = h
         | message :: rest =>
             outcome (reducer config (machine h) message) = Ok (machine h') ∧
             queue h' = rest
         end ∧
         value (machine h') = value (machine h) ∧
         effect_runs (trace (next config h)) = []).
Proof.
  intros Hreach.
  destruct (hook_reachable_ok _ _ _ Hreach) as (Hdeps & Hcleanup & Hqueue).
  split; [|split; [|split]].
  - destruct (hook_reachable_mounted _ _ _ Hreach) as [h0 Hh0].
    destruct (mount_outcome _ _ _ Hh0) as (m & Hm & ->).
    exists m. eexists. split; [done|]. split; [done|]. split; [done|].
    destruct (initialState_Ok _ _ _ Hm) as (_ & Hmeq).
    assert (value m = initial config) as Hv by (by rewrite Hmeq).
    split; [done|]. rewrite (mount_Ok _ _ _ Hm), <- Hv. simpl.
    rewrite effect_runs_app, initialState_no_effect_runs. simpl.
    apply effect_runs_entry_run.
  - intros message s'. by apply render_effect_runs.
  - intros message Hstays.
    destruct (stays_value _ _ _ Hstays) as (s' & Hs' & Hv).
    destruct (render_effect_runs _ _ _ _ Hdeps Hcleanup Hs')
      as (h' & Hout & Hm & _ & Hsame).
    exists h'. rewrite Hm. repeat split; try done. by apply Hsame.
  - destruct (queue h) as [|message rest] eqn:Hq.
    + exists h. unfold next. by rewrite Hq.
    + rewrite (next_render _ _ _ _ Hq).
      inversion Hqueue as [|? ? Hupd _]; subst.
      destruct message as [event|updater]; [done|].
      set (h1 := {| machine := machine h; deps := deps h;
                    cleanup := cleanup h; queue := rest |}).
      destruct (render_effect_runs config h1 (ContextUpdate updater) _
                  Hdeps Hcleanup eq_refl) as (h' & Hout & Hm & _ & Hsame).
      exists h'. split; [done|]. rewrite Hm.
      destruct (Hsame eq_refl) as [Hruns Hrest]. by repeat split.
Qed.

Lemma effects_follow_value_changes_witness :
  effect_runs (trace (mount None toggle)) = [RunEntry "inactive"] ∧
  (∃ h', outcome (render toggle toggle_mounted (Event "TOGGLE")) = Ok h' ∧
         machine h' = active1 ∧
         effect_runs (trace (render toggle toggle_mounted (Event "TOGGLE"))) =
           [RunExit "inactive"; RunEntry "active"] ∧
         queue h' = [ContextUpdate count_up]) ∧
  (∃ h', outcome (render toggle toggle_mounted (Event "RESET")) = Ok h' ∧
         machine h' = machine toggle_mounted ∧
         effect_runs (trace (render toggle toggle_mounted (Event "RESET"))) =
           []).
Proof.
  destruct (effects_follow_value_changes None toggle toggle_mounted)
    as (Hmount & Hrender & Hstays & _);
    [apply hook_mounted; reflexivity|].
  split; [|split].
  - destruct Hmount as (s0 & h0 & _ & _ & _ & _ & ->). reflexivity.
  - destruct (Hrender (Event "TOGGLE") active1 eq_refl)
      as (h' & Hout & Hm & Hchanged & _).
    destruct Hchanged as [Hruns Hq]; [discriminate|].
    exists h'. split; [exact Hout|]. split; [exact Hm|].
    split; [rewrite Hruns | rewrite Hq]; reflexivity.
  - destruct (Hstays (Event "RESET") eq_refl) as (h' & Hout & Hred & _ & Hruns).
    exists h'. split; [exact Hout|]. split; [|exact Hruns].
    change (Ok (machine toggle_mounted) = Ok (machine h')) in Hred.
    congruence.
Defined.

(** The scenario in numbers: the order of the effects and the snapshot at
    the end. *)
Example toggle_twice_effect_order :
  effect_runs (trace toggle_twice) =
    [RunEntry "inactive"; RunExit "inactive"; RunEntry "active";
     RunExit "active"; RunEntry "inactive"].
Proof. reflexivity. Qed.

Example toggle_twice_snapshot :
  machine <$> (match outcome toggle_twice with
               | Ok h => Some h
               | TypeError => None
               end) =
    Some {| value := "inactive"; context := {[ "count" := 1%Z ]};
            nextEvents := ["TOGGLE"] |}.
Proof. reflexivity. Qed.

(** ** Runs of the reducer *)

Lemma reduce_all_cons {Val} (config : MachineConfig Val) s message rest s' :
  outcome (reducer config s message) = Ok s' →
  outcome (reduce_all config s (message :: rest)) =
  outcome (reduce_all config s' rest).
Proof. intros Hs'. simpl. by rewrite (outcome_bind_Ok _ _ _ Hs'). Qed.

Lemma reduce_all_TypeError {Val} (config : MachineConfig Val) s message rest :
  outcome (reducer config s message) = TypeError →
  outcome (reduce_all config s (message :: rest)) = TypeError.
Proof.
  simpl. destruct (reducer config s message) as [t r]. simpl. by intros ->.
Qed.

Lemma reducer_on_context {Val} (config : MachineConfig Val) s message s' :
  outcome (reducer config s message) = Ok s' →
  context s' = on_context (context s) message.
Proof.
  destruct message as [event|updater]; simpl.
  - rewrite reducer_event.
    assert (∀ target, landed config s target = Ok s' → context s' = context s)
      as Hlanded by (by intros target [_ ->]%landed_Ok).
    destruct (next_of _ _ _) as [t|m|]; simpl; [|eauto|by intros [= <-]].
    destruct (truthy t); [|by intros [= <-]].
    destruct t as [target|target [guard|]]; simpl; eauto.
    destruct (guard _ _); simpl; eauto. by intros [= <-].
  - by intros [= <-].
Qed.

(** X1.  Over any run of messages that returns, the final context is the
    context at the start with the updaters of the context updates applied
    in the order sent; events leave it alone. *)
Theorem reduce_all_context {Val} (config : MachineConfig Val)
    (s s' : MachineState Val) (messages : list (Message Val)) :
  outcome (reduce_all config s messages) = Ok s' →
  context s' = foldl on_context (context s) messages.
Proof.
  revert s. induction messages as [|message rest IH]; intros s.
  - by intros [= <-].
  - destruct (outcome (reducer config s message)) as [s1|] eqn:Hs1.
    + rewrite (reduce_all_cons _ _ _ _ _ Hs1). intros Hrest%IH.
      simpl. by rewrite <- (reducer_on_context _ _ _ _ Hs1).
    + by rewrite (reduce_all_TypeError _ _ _ _ Hs1).
Qed.

Lemma reduce_all_context_witness :
  context {| value := "active"; context := {[ "count" := 2%Z ]};
             nextEvents := ["TOGGLE"] |} =
  foldl on_context (context inactive0) count_toggle_count.
Proof.
  apply (reduce_all_context toggle inactive0 _ count_toggle_count).
  reflexivity.
Defined.

Lemma reducer_position {Val} (config : MachineConfig Val) s1 s2 event :
  value s1 = value s2 → nextEvents s1 = nextEvents s2 →
  position (outcome (reducer config s1 (Event event))) =
  position (outcome (reducer config s2 (Event event))).
Proof.
  intros Hv Hn. rewrite !reducer_event, Hv.
  assert (∀ target, position (landed config s1 target) =
                    position (landed config s2 target)) as Hlanded.
  { intros target. unfold landed. by destruct (resolved config target). }
  destruct (next_of _ _ _) as [t|m|]; simpl; [|done|by rewrite Hv, Hn].
  destruct (truthy t); simpl; [|by rewrite Hv, Hn].
  destruct t as [target|target [guard|]]; simpl; try done.
  destruct (guard _ _); simpl; [done|]. by rewrite Hv, Hn.
Qed.

(** X2.  The state value and the next events at the end of a run, and
    whether the run raises, depend on the events alone: the context at the
    start and the context updates in between play no role. *)
Theorem reduce_all_position {Val} (config : MachineConfig Val)
    (s1 s2 : MachineState Val) (messages : list (Message Val)) :
  value s1 = value s2 →
  nextEvents s1 = nextEvents s2 →
  position (outcome (reduce_all config s1 messages)) =
  position (outcome (reduce_all config s2 (List.filter is_event messages))).
Proof.
  revert s1 s2. induction messages as [|message rest IH]; intros s1 s2 Hv Hn.
  - simpl. by rewrite Hv, Hn.
  - destruct message as [event|updater].
    + pose proof (reducer_position config s1 s2 event Hv Hn) as Hpos.
      change (List.filter is_event (Event event :: rest))
        with (Event event :: List.filter is_event rest).
      destruct (outcome (reducer config s1 (Event event))) as [s1'|] eqn:H1;
        destruct (outcome (reducer config s2 (Event event))) as [s2'|] eqn:H2;
        simpl in Hpos; try done.
      * rewrite (reduce_all_cons _ _ _ _ _ H1), (reduce_all_cons _ _ _ _ _ H2).
        injection Hpos as Hv' Hn'. by apply IH.
      * by rewrite (reduce_all_TypeError _ _ _ _ H1),
                   (reduce_all_TypeError _ _ _ _ H2).
    + change (List.filter is_event (ContextUpdate updater :: rest))
        with (List.filter is_event rest).
      rewrite (reduce_all_cons config s1 (ContextUpdate updater) rest
                 {| value := value s1; context := updater (context s1);
                    nextEvents := nextEvents s1 |}) by done.
      by apply IH.
Qed.

Lemma reduce_all_position_witness :
  position (outcome (reduce_all toggle inactive0 count_toggle_count)) =
  position (outcome (reduce_all toggle
                       {| value := "inactive"; context := ∅;
                          nextEvents := ["TOGGLE"] |}
                       (List.filter is_event count_toggle_count))).
Proof.
  apply (reduce_all_position toggle inactive0
           {| value := "inactive"; context := ∅; nextEvents := ["TOGGLE"] |}
           count_toggle_count); reflexivity.
Defined.

(** ** Failure and guard calls of one step *)

Lemma not_empty_truthy (t : Transition) : truthy t = true ↔ t ≠ Shorthand "".
Proof.
  split; [|apply truthy_not_empty].
  intros Htruthy ->. by vm_compute in Htruthy.
Qed.

Lemma landed_TypeError {Val} (config : MachineConfig Val) s target :
  landed config s target = TypeError ↔ resolved config target = NotFound.
Proof. unfold landed. by destruct (resolved config target). Qed.

Lemma resolved_Undefined {Val} (config : MachineConfig Val) :
  resolved config Undefined = NotFound ↔ states config !! "undefined" = None.
Proof.
  unfold resolved, index. simpl.
  by destruct (states config !! "undefined").
Qed.

(** X3.  The reducer raises in two cases only.  The message is an event
    whose transition is present, is not the empty shorthand, passes its
    guard and targets a name that [config.states] does not resolve; or the
    message is an event that [on] resolves to a member of
    [Object.prototype], and no state is named [undefined]. *)
Theorem reducer_TypeError_iff {Val} (config : MachineConfig Val)
    (s : MachineState Val) (message : Message Val) :
  outcome (reducer config s message) = TypeError ↔
  ∃ event,
    message = Event event ∧
    ((∃ t, transition_of config (value s) event = Some t ∧
           t ≠ Shorthand "" ∧
           guard_passes t (value s) event = true ∧
           resolved config (target_of t) = NotFound) ∨
     (∃ m, next_of config (value s) event = Inherited m ∧
           states config !! "undefined" = None)).
Proof.
  split.
  - destruct message as [event|updater]; [|by rewrite reducer_update].
    rewrite reducer_event. intros Herr. exists event. split; [done|].
    destruct (next_of _ _ _) as [t|m|] eqn:Ht; [| |done].
    + left. exists t. apply transition_of_Some in Ht. split; [done|].
      destruct (truthy t) eqn:Htruthy; [|done].
      apply not_empty_truthy in Htruthy. split; [done|].
      destruct t as [target|target [guard|]]; simpl in *.
      * by apply landed_TypeError in Herr.
      * destruct (guard _ _); [|done]. by apply landed_TypeError in Herr.
      * by apply landed_TypeError in Herr.
    + right. exists m. split; [done|].
      simpl in Herr. by apply landed_TypeError, resolved_Undefined in Herr.
  - intros (event & -> & [(t & Ht & Hne & Hpass & Hmissing)|(m & Hm & Hundef)]).
    + rewrite (reducer_allowed _ _ _ _ Ht (truthy_not_empty _ Hne) Hpass).
      by apply landed_TypeError.
    + rewrite reducer_event, Hm. simpl.
      by apply landed_TypeError, resolved_Undefined.
Qed.

(** X4.  A guard is called only for an event whose transition in the
    current state is an object with a guard, once, on the state value and
    the event name; no guard is called for a context update, for an event
    without transition or for a transition without guard. *)
Theorem reducer_guard_calls {Val} (config : MachineConfig Val)
    (s : MachineState Val) (message : Message Val) :
  guard_calls (trace (reducer config s message)) =
  match message with
  | Event event =>
      match transition_of config (value s) event with
      | Some (TransitionObject _ (Some _)) => [CallGuard (value s) event]
      | _ => []
      end
  | ContextUpdate _ => []
  end.
Proof.
  destruct message as [event|updater]; [|done].
  rewrite reducer_event. unfold transition_of.
  destruct (next_of _ _ _) as [[target|target [guard|]]|m|]; simpl; try done.
  - by destruct (negb _).
  - by destruct (guard _ _).
Qed.

(** ** Reachable snapshots *)

(** X5.  In a reachable snapshot an event that is not among [nextEvents]
    and is not the name of a member of [Object.prototype] is ignored: the
    reducer reads the current state and returns the snapshot. *)
Theorem reachable_ignores_unlisted {Val} (ctx : option (gmap string Val))
    (config : MachineConfig Val) (s : MachineState Val) (event : string) :
  reachable ctx config s →
  event ∉ nextEvents s →
  Object_prototype event = None →
  reducer config s (Event event) = ([ReadState (value s)], Ok s).
Proof.
  intros Hcur%reachable_nextEvents_current Hnotin Hproto.
  apply nextEvents_current_found in Hcur as [_ Hnext].
  rewrite Hnext, found_keys_lookup in Hnotin.
  rewrite reducer_event. unfold transition_of in Hnotin.
  destruct (next_of config (value s) event) as [t|m|] eqn:Ht;
    [by destruct Hnotin; eexists| |done].
  unfold next_of, on_lookup in Ht.
  destruct (resolved config (value s)) as [sc| |]; [|done|done].
  destruct (on sc) as [o|]; [|done].
  unfold get, index in Ht. rewrite Hproto in Ht.
  by destruct (get_own o event).
Qed.

Lemma reachable_ignores_unlisted_witness :
  reducer toggle active1 (Event "RESET") = ([ReadState "active"], Ok active1).
Proof.
  apply (reachable_ignores_unlisted None toggle active1 "RESET").
  - apply (reachable_step _ _ _
             {| value := "inactive"; context := ∅; nextEvents := ["TOGGLE"] |}
             (Event "TOGGLE")).
    + apply reachable_initial. reflexivity.
    + reflexivity.
  - apply (bool_decide_unpack _). vm_compute. exact I.
  - reflexivity.
Defined.

Lemma reducer_value_origin {Val} (config : MachineConfig Val) s message s' :
  outcome (reducer config s message) = Ok s' →
  value s' = value s ∨
  (∃ event t, transition_of config (value s) event = Some t ∧
              Named (target_of t) = value s') ∨
  value s' = Undefined.
Proof.
  destruct message as [event|updater]; [|intros [= <-]; by left].
  rewrite reducer_event.
  destruct (next_of _ _ _) as [t|m|] eqn:Ht; simpl;
    [|intros [_ ->]%landed_Ok; by right; right|intros [= <-]; by left].
  apply transition_of_Some in Ht.
  assert (landed config s (target_of t) = Ok s' →
          value s' = value s ∨
          (∃ event t, transition_of config (value s) event = Some t ∧
                      Named (target_of t) = value s') ∨
          value s' = Undefined) as Hlanded.
  { intros [_ ->]%landed_Ok. right. left. by exists event, t. }
  destruct (truthy t); [|intros [= <-]; by left].
  destruct t as [target|target [guard|]]; simpl in *; try done.
  destruct (guard _ _); [done|]. intros [= <-]. by left.
Qed.

(** X6.  The state value of a reachable snapshot is resolved by
    [config.states], by a declared state or by a member of
    [Object.prototype]; it is the initial state, the target of a transition
    of a declared state, or [undefined], and [undefined] only when a state
    is named [undefined]. *)
Theorem reachable_value_origin {Val} (ctx : option (gmap string Val))
    (config : MachineConfig Val) (s : MachineState Val) :
  reachable ctx config s →
  resolved config (value s) ≠ NotFound ∧
  (value s = initial config ∨
   (∃ v event t, is_Some (states config !! key_of v) ∧
                 transition_of config v event = Some t ∧
                 Named (target_of t) = value s) ∨
   value s = Undefined) ∧
  (value s = Undefined → is_Some (states config !! "undefined")).
Proof.
  intros Hreach.
  assert (resolved config (value s) ≠ NotFound) as Hfound.
  { apply reachable_nextEvents_current, nextEvents_current_found in Hreach.
    by destruct Hreach. }
  split; [done|]. split.
  - induction Hreach as [s Hinit|s message s' Hreach IH Hstep].
    + apply initialState_Ok in Hinit as (_ & ->). by left.
    + destruct (reducer_value_origin _ _ _ _ Hstep)
        as [->|[(event & t & Ht & Hv)|Hv]].
      * apply IH.
        apply reachable_nextEvents_current, nextEvents_current_found in Hreach.
        by destruct Hreach.
      * right. left. exists (value s), event, t. split; [|done].
        destruct (transition_of_state _ _ _ _ Ht) as [sc Hsc].
        apply resolved_own in Hsc. by eexists.
      * by right; right.
  - intros Hv. rewrite Hv in Hfound.
    destruct (states config !! "undefined") eqn:Hundef; [by eexists|].
    by apply resolved_Undefined in Hundef.
Qed.

Lemma reachable_value_origin_witness :
  resolved toggle (value active1) ≠ NotFound ∧
  (value active1 = initial toggle ∨
   (∃ v event t, is_Some (states toggle !! key_of v) ∧
                 transition_of toggle v event = Some t ∧
                 Named (target_of t) = value active1) ∨
   value active1 = Undefined) ∧
  (value active1 = Undefined → is_Some (states toggle !! "undefined")).
Proof.
  apply (reachable_value_origin None toggle active1).
  apply (reachable_step _ _ _
           {| value := "inactive"; context := ∅; nextEvents := ["TOGGLE"] |}
           (Event "TOGGLE")).
  - apply reachable_initial. reflexivity.
  - reflexivity.
Defined.

(** X7.  A transition from a reachable snapshot to its own state, when it
    is allowed, returns a snapshot equal to the one given: the recomputed
    [nextEvents] are the ones it had. *)
Theorem reducer_self_transition {Val} (ctx : option (gmap string Val))
    (config : MachineConfig Val) (s : MachineState Val) (event : string)
    (t : Transition) :
  reachable ctx config s →
  transition_of config (value s) event = Some t →
  Named (target_of t) = value s →
  guard_passes t (value s) event = true →
  outcome (reducer config s (Event event)) = Ok s.
Proof.
  intros Hcur%reachable_nextEvents_current Ht Hself Hpass.
  apply nextEvents_current_found in Hcur as [Hfound Hnext].
  pose proof Ht as Ht'%transition_of_Some.
  rewrite reducer_event, Ht'.
  destruct (truthy t) eqn:Htruthy; [|done].
  assert (landed config s (target_of t) = Ok s) as Hlanded.
  { unfold landed. rewrite Hself.
    destruct (resolved config (value s)); [| |done];
      rewrite <- Hnext; by destruct s. }
  destruct t as [target|target [guard|]]; simpl in *; try done.
  by rewrite Hpass.
Qed.

Lemma reducer_self_transition_witness :
  outcome (reducer turnstile locked0 (Event "PUSH")) = Ok locked0.
Proof.
  apply (reducer_self_transition None turnstile locked0 "PUSH"
           (Shorthand "locked")).
  - apply reachable_initial. reflexivity.
  - reflexivity.
  - reflexivity.
  - reflexivity.
Defined.

(** ** Delivery of the queue *)

Lemma trace_bind_Ok {A B} (m : M A) (k : A → M B) a :
  outcome m = Ok a → trace (m ≫= k) = trace m ++ trace (k a).
Proof.
  destruct m as [t r]; simpl; intros ->.
  unfold mbind, M_bind. by destruct (k a).
Qed.

Lemma next_update {Val} (config : MachineConfig Val) h updater rest :
  deps h = value (machine h) →
  cleanup h = exit_of config (value (machine h)) →
  queue h = ContextUpdate updater :: rest →
  next config h =
  ([ReadState (value (machine h))],
   Ok {| machine := {| value := value (machine h);
                       context := updater (context (machine h));
                       nextEvents := nextEvents (machine h) |};
         deps := deps h; cleanup := cleanup h; queue := rest |}).
Proof.
  intros Hdeps Hcleanup Hq. rewrite (next_render _ _ _ _ Hq).
  set (h1 := {| machine := machine h; deps := deps h;
                cleanup := cleanup h; queue := rest |}).
  pose proof (render_Ok config h1 (ContextUpdate updater) _ Hdeps Hcleanup
                eq_refl) as Heq.
  simpl in Heq. by rewrite bool_decide_true in Heq.
Qed.

Lemma deliver_updates {Val} (config : MachineConfig Val) (q : list (Message Val)) :
  ∀ h, deps h = value (machine h) →
       cleanup h = exit_of config (value (machine h)) →
       queue h = q →
       Forall is_update q →
       deliver config (length q) h =
       (repeat (ReadState (value (machine h))) (length q),
        Ok {| machine := {| value := value (machine h);
                            context := foldl on_context (context (machine h)) q;
                            nextEvents := nextEvents (machine h) |};
              deps := deps h; cleanup := cleanup h; queue := [] |}).
Proof.
  induction q as [|message rest IH]; intros h Hdeps Hcleanup Hq Hall.
  - simpl. destruct h as [[v c n] d cl qu]. simpl in *. by subst.
  - inversion Hall as [|? ? Hupd Hrest]; subst.
    destruct message as [event|updater]; [done|].
    simpl. rewrite (next_update _ _ _ _ Hdeps Hcleanup Hq).
    set (h2 := {| machine := _; deps := deps h |}).
    specialize (IH h2 Hdeps Hcleanup eq_refl Hrest).
    cbn. rewrite IH. done.
Qed.

(** X8.  Delivering the messages that effects have queued in a reachable
    hook returns, empties the queue, applies the queued updaters to the
    context in order, keeps the state value, the next events and the pending
    cleanup, and runs no effect. *)
Theorem deliver_queue {Val} (ctx : option (gmap string Val))
    (config : MachineConfig Val) (h : Hook Val) :
  hook_reachable ctx config h →
  outcome (deliver config (length (queue h)) h) =
    Ok {| machine := {| value := value (machine h);
                        context := foldl on_context (context (machine h))
                                     (queue h);
                        nextEvents := nextEvents (machine h) |};
          deps := deps h; cleanup := cleanup h; queue := [] |} ∧
  effect_runs (trace (deliver config (length (queue h)) h)) = [].
Proof.
  intros (Hdeps & Hcleanup & Hqueue)%hook_reachable_ok.
  rewrite (deliver_updates config (queue h) h Hdeps Hcleanup eq_refl Hqueue).
  split; [done|]. simpl.
  induction (length (queue h)) as [|n IH]; [done|]. done.
Qed.

Lemma deliver_queue_witness :
  outcome (deliver toggle (length (queue toggle_active)) toggle_active) =
    Ok {| machine := {| value := value (machine toggle_active);
                        context := foldl on_context
                                     (context (machine toggle_active))
                                     (queue toggle_active);
                        nextEvents := nextEvents (machine toggle_active) |};
          deps := deps toggle_active; cleanup := cleanup toggle_active;
          queue := [] |} ∧
  effect_runs (trace (deliver toggle (length (queue toggle_active))
                        toggle_active)) = [].
Proof.
  apply (deliver_queue None toggle toggle_active).
  apply (hook_rendered _ _ _ toggle_mounted (Event "TOGGLE")).
  - apply hook_mounted. reflexivity.
  - reflexivity.
Defined.

(** ** Entries and exits over the life of a hook *)

Lemma outcome_bind_TypeError {A B} (m : M A) (k : A → M B) :
  outcome m = TypeError → outcome (m ≫= k) = TypeError.
Proof. destruct m as [t r]; simpl; by intros ->. Qed.

Lemma trace_bind_TypeError {A B} (m : M A) (k : A → M B) :
  outcome m = TypeError → trace (m ≫= k) = trace m.
Proof. destruct m as [t r]; simpl; by intros ->. Qed.

Lemma exits_follow_entries_app entered t1 t2 :
  exits_follow_entries entered t1 →
  exits_follow_entries (entered_after entered t1) t2 →
  exits_follow_entries entered (t1 ++ t2).
Proof.
  revert entered. induction t1 as [|a t1 IH]; intros entered; simpl; [done|].
  destruct a; simpl; intros H1 H2; try by apply IH.
  destruct H1 as [-> H1]. split; [done | by apply IH].
Qed.

Lemma entered_after_app entered t1 t2 :
  entered_after entered (t1 ++ t2) =
  entered_after (entered_after entered t1) t2.
Proof.
  revert entered. induction t1 as [|a t1 IH]; intros entered; simpl; [done|].
  by destruct a.
Qed.

Lemma no_effect_runs_follow entered t :
  effect_runs t = [] →
  exits_follow_entries entered t ∧ entered_after entered t = entered.
Proof.
  induction t as [|a t IH]; simpl; [done|].
  destruct a; simpl; try done.
Qed.

Lemma exit_of_owner {Val} (config : MachineConfig Val) v w us :
  exit_of config v = Some (w, us) → w = v ∧ is_Some (effect_of config v).
Proof.
  unfold exit_of. destruct (effect_of config v) as [e|]; [|done].
  destruct (exit e); simpl; [|done]. intros [= <- _]. by split; [|eexists].
Qed.

Lemma render_exits {Val} (config : MachineConfig Val) h message entered :
  deps h = value (machine h) →
  cleanup h = exit_of config (value (machine h)) →
  cleanup_entered h entered →
  exits_follow_entries entered (trace (render config h message)) ∧
  ∀ h', outcome (render config h message) = Ok h' →
        cleanup_entered h'
          (entered_after entered (trace (render config h message))).
Proof.
  intros Hdeps Hcleanup Hentered.
  pose proof (reducer_no_effect_runs config (machine h) message) as Hnone.
  destruct (no_effect_runs_follow entered _ Hnone) as [Hfollow Hafter].
  destruct (outcome (reducer config (machine h) message)) as [m'|] eqn:Hred.
  - rewrite (render_Ok _ _ _ _ Hdeps Hcleanup Hred).
    destruct (bool_decide (value (machine h) = value m')); simpl.
    + split; [done|]. intros h' [= <-]. by rewrite Hafter.
    + assert (exits_follow_entries entered
                (exit_run config (value (machine h))) ∧
              entered_after entered (exit_run config (value (machine h))) =
                match exit_of config (value (machine h)) with
                | Some _ => None
                | None => entered
                end) as [Hexit Hexit_after].
      { unfold exit_run.
        destruct (exit_of config (value (machine h))) as [[w us]|] eqn:Hx;
          simpl; [|done].
        destruct (exit_of_owner _ _ _ _ Hx) as [-> _].
        rewrite (Hentered _ us) by (by rewrite Hcleanup). done. }
      assert (∀ e, exits_follow_entries e
                     (ReadState (value m') :: entry_run config (value m')))
        as Hentry.
      { intros e. unfold entry_run. by destruct (effect_of config (value m')). }
      split.
      * apply exits_follow_entries_app; [done|].
        apply exits_follow_entries_app; [by rewrite Hafter | apply Hentry].
      * intros h' [= <-] v us Hx. simpl in Hx.
        destruct (exit_of_owner _ _ _ _ Hx) as [-> [e He]].
        rewrite !entered_after_app. unfold entry_run. rewrite He. done.
  - unfold render. rewrite trace_bind_TypeError by done.
    split; [done|]. intros h'. by rewrite outcome_bind_TypeError.
Qed.

Lemma steps_exits {Val} (config : MachineConfig Val) (l : list (Step Val)) :
  ∀ h entered,
    hook_ok config h →
    cleanup_entered h entered →
    exits_follow_entries entered (trace (steps config h l)).
Proof.
  induction l as [|step l IH]; intros h entered Hok Hentered; [done|].
  destruct Hok as (Hdeps & Hcleanup & Hqueue).
  assert (∀ h1 message,
            deps h1 = value (machine h1) →
            cleanup h1 = exit_of config (value (machine h1)) →
            Forall is_update (queue h1) →
            cleanup_entered h1 entered →
            exits_follow_entries entered
              (trace (h' ← render config h1 message; steps config h' l)))
    as Hrender.
  { intros h1 message Hd Hc Hq He.
    destruct (render_exits config h1 message entered Hd Hc He) as [Hfollow Hnext].
    destruct (outcome (render config h1 message)) as [h'|] eqn:Hout.
    - rewrite (trace_bind_Ok _ _ _ Hout).
      apply exits_follow_entries_app; [done|].
      apply IH; [by eapply render_hook_ok | by apply Hnext].
    - by rewrite trace_bind_TypeError. }
  destruct step as [message|]; simpl steps.
  - by apply Hrender.
  - destruct (queue h) as [|message rest] eqn:Hq.
    + assert (next config h = mret h) as -> by (unfold next; by rewrite Hq).
      rewrite (trace_bind_Ok _ _ h) by done. simpl.
      apply IH; [|done]. repeat split; try done. by rewrite Hq.
    + rewrite (next_render _ _ _ _ Hq). apply Hrender; simpl; try done.
      by inversion Hqueue.
Qed.

(** X9.  Over the whole life of a hook, whatever is sent and delivered and
    also when a step raises, an exit function runs only for the state whose
    entry effect ran last, with no other effect run in between, hence at
    most once per entry. *)
Theorem session_exits_follow_entries {Val} (ctx : option (gmap string Val))
    (config : MachineConfig Val) (l : list (Step Val)) :
  exits_follow_entries None (trace (session ctx config l)).
Proof.
  unfold session.
  destruct (outcome (mount ctx config)) as [h|] eqn:Hmount.
  - rewrite (trace_bind_Ok _ _ _ Hmount).
    pose proof (hook_reachable_ok ctx config h (hook_mounted _ _ _ _ Hmount)) as Hok.
    destruct (mount_outcome _ _ _ Hmount) as (m & Hm & Hh).
    rewrite (mount_Ok _ _ _ Hm).
    pose proof (initialState_no_effect_runs ctx config) as Hnone.
    destruct (no_effect_runs_follow None _ Hnone) as [Hfollow Hafter].
    simpl trace at 1.
    assert (exits_follow_entries None
              (ReadState (value m) :: entry_run config (value m))) as Hentry
      by (unfold entry_run; by destruct (effect_of config (value m))).
    apply exits_follow_entries_app;
      [by apply exits_follow_entries_app; [|rewrite Hafter]|].
    apply steps_exits; [done|].
    intros v us Hx. rewrite Hh in Hx. simpl in Hx.
    destruct (exit_of_owner _ _ _ _ Hx) as [-> [e He]].
    simpl trace. rewrite entered_after_app, Hafter. simpl.
    unfold entry_run. by rewrite He.
  - rewrite trace_bind_TypeError by done.
    unfold mount. 
    destruct (outcome (initialState ctx config)) as [m|] eqn:Hm.
    + by rewrite (mount_Ok _ _ _ Hm) in Hmount.
    + rewrite trace_bind_TypeError by done.
      by apply no_effect_runs_follow, initialState_no_effect_runs.
Qed.

(** ** [useConstant] *)

Lemma useConstant_renders_set {T} (inits : list (unit → option T)) v :
  useConstant_renders inits (Some v) = (repeat (Some v) (length inits), 0).
Proof.
  induction inits as [|init inits IH]; simpl; [done|]. by rewrite IH.
Qed.

(** X10.  When [init] returns a value other than [null] in the first
    render, every render returns that value and [init] is called once,
    whatever [init] the later renders pass. *)
Theorem useConstant_first_render_wins {T} (init : unit → option T)
    (inits : list (unit → option T)) (v : T) :
  init tt = Some v →
  useConstant_renders (init :: inits) None =
    (repeat (Some v) (S (length inits)), 1).
Proof. intros Hinit. simpl. by rewrite Hinit, useConstant_renders_set. Qed.

Lemma useConstant_first_render_wins_witness :
  useConstant_renders
    [(λ _, Some 1); (λ _, Some 2); (λ _, None)] None =
    (repeat (Some 1) 3, 1).
Proof.
  apply (useConstant_first_render_wins (λ _, Some 1)
           [(λ _, Some 2); (λ _, None)] 1).
  reflexivity.
Defined.

(** X11.  As long as [init] returns [null], the reference stays [null] and
    [init] is called again in each render. *)
Theorem useConstant_null_reruns {T} (inits : list (unit → option T)) :
  Forall (λ init, init tt = None) inits →
  useConstant_renders inits None = (repeat None (length inits), length inits).
Proof.
  induction 1 as [|init inits Hinit _ IH]; simpl; [done|].
  by rewrite Hinit, IH.
Qed.

Lemma useConstant_null_reruns_witness :
  useConstant_renders [(λ _, @None nat); (λ _, None)] None =
    (repeat None 2, 2).
Proof.
  apply (useConstant_null_reruns [(λ _, @None nat); (λ _, None)]).
  repeat constructor.
Defined.

(** ** [log] *)

(** X12.  [log] calls [console.log] exactly when [NODE_ENV] is the string
    [development]; the arguments of the call are the format string, made
    of the prefix and the message, the two style strings and the optional
    parameters, in that order. *)
Theorem log_call {A} (NODE_ENV : option string) (message : string)
    (optionalParams : list A) :
  (is_Some (log NODE_ENV message optionalParams) ↔
   NODE_ENV = Some "development") ∧
  ∀ args, log NODE_ENV message optionalParams = Some args →
    args = inl ("%cuseStateMachine %c" +:+ message)
           :: inl "color: #888;" :: inl "color: default;"
           :: map inr optionalParams.
Proof.
  unfold log. destruct NODE_ENV as [env|].
  - destruct (String.eqb_spec env "development") as [->|Hne].
    + split; [split; [done | by eexists]|]. by intros args [= <-].
    + split; [|done]. split; [by intros [? ?] | intros [= ?]; by destruct Hne].
  - split; [|done]. split; [by intros [? ?] | done].
Qed.

